(** * The streaming Base64 codec of [src/sandstorm/util.c++]

    A shallow embedding of the encoder and decoder state machines derived
    from libb64, of the two one-shot drivers [base64Encode] and
    [base64Decode], and the properties the specification states about them.

    Conventions of the embedding.
    - A C [char] is a [Z] in [-128, 127] (the target's [char] is signed);
      every assignment to a [char] object goes through [to_char], the
      conversion from [int].  A [byte] ([unsigned char]) is a [Z] in
      [0, 255]; reinterpreting a [char] as a [byte] is [to_byte].
    - [&], [|], [<<] and [>>] act on the promoted [int] operands and are
      [Z.land], [Z.lor], [Z.shiftl] and [Z.shiftr].
    - The input pointer that walks from [begin] to [end] is the list of the
      elements still to be read.  The [switch] whose [case] labels sit inside
      [while (1)] is a loop that is entered at the label of the stored step:
      the loop functions take the current step as an argument.
    - An [int] and a [uint] have 32 bits and a [size_t] 64.  The one-shot
      encode driver converts between them ([input.size()] to
      [int length_in], the [int] counts the calls return to [size_t total],
      the number of lines to [uint]); these conversions are [to_int],
      [to_uint] and [to_size_t].  The counters inside the two state machines
      are unbounded integers (they stay below the number of elements of the
      arrays they count in), and so are the sizes of the decoder: the model
      of [base64Decode] is of texts of at most [INT_MAX] characters, the
      ones its [int length_in] can hold. *)

From Stdlib Require Import Ascii String ZArith List Bool Lia.
Import ListNotations.

Local Open Scope Z_scope.

(** ** Characters and bytes *)

Definition to_char (z : Z) : Z := (z + 128) mod 256 - 128.

Definition to_byte (z : Z) : Z := z mod 256.

Definition chr (a : ascii) : Z := Z.of_N (N_of_ascii a).

Definition text (s : string) : list Z := map chr (list_ascii_of_string s).

Definition newline : Z := 10.

Definition len {A : Type} (l : list A) : Z := Z.of_nat (length l).

(** ** Integer types *)

Definition INT_MAX : Z := 2147483647.

(** The conversions to [int], [uint] and [size_t] (two's complement). *)
Definition to_int (z : Z) : Z := (z + 2147483648) mod 4294967296 - 2147483648.

Definition to_uint (z : Z) : Z := z mod 4294967296.

Definition to_size_t (z : Z) : Z := z mod 18446744073709551616.

(** ** Encoder *)

Inductive base64_encodestep : Type := step_A | step_B | step_C.

Record base64_encodestate : Type := {
  enc_step : base64_encodestep;
  enc_result : Z;
  enc_stepcount : Z
}.

Definition CHARS_PER_LINE : Z := 72.

Definition base64_init_encodestate : base64_encodestate :=
  {| enc_step := step_A; enc_result := 0; enc_stepcount := 0 |}.

Definition encoding : list Z :=
  text "ABCDEFGHIJKLMNOPQRSTUVWXYZabcdefghijklmnopqrstuvwxyz0123456789+/".

(** [encoding[(int)value_in]].  A negative [value_in] would index in front
    of the string; no call passes one (lemma [encode_loop_state]), and no
    property below is stated for one. *)
Definition base64_encode_value (value_in : Z) : Z :=
  if 63 <? value_in then chr "="
  else nth (Z.to_nat value_in) encoding 0.

(** Appends to what the rest of the call writes behind [codechar]. *)
Definition emit {S : Type} (c : Z) (r : list Z * S) : list Z * S :=
  (c :: fst r, snd r).

(** The body of [while (1)] in [base64_encode_block], entered at [st];
    [result] is the local variable, [stepcount] the field of [*state_in]. *)
Fixpoint encode_loop (breakLines : bool) (plainchar : list Z)
    (st : base64_encodestep) (result stepcount : Z)
  : list Z * base64_encodestate :=
  match plainchar with
  | [] =>
      ([], {| enc_step := st; enc_result := result; enc_stepcount := stepcount |})
  | b :: plainchar =>
      let fragment := to_char b in
      match st with
      | step_A =>
          let result := to_char (Z.shiftr (Z.land fragment 0x0fc) 2) in
          emit (base64_encode_value result)
            (let result := to_char (Z.shiftl (Z.land fragment 0x003) 4) in
             encode_loop breakLines plainchar step_B result stepcount)
      | step_B =>
          let result := to_char (Z.lor result (Z.shiftr (Z.land fragment 0x0f0) 4)) in
          emit (base64_encode_value result)
            (let result := to_char (Z.shiftl (Z.land fragment 0x00f) 2) in
             encode_loop breakLines plainchar step_C result stepcount)
      | step_C =>
          let result := to_char (Z.lor result (Z.shiftr (Z.land fragment 0x0c0) 6)) in
          emit (base64_encode_value result)
            (let result := to_char (Z.shiftr (Z.land fragment 0x03f) 0) in
             emit (base64_encode_value result)
               (let stepcount := stepcount + 1 in
                if breakLines && (stepcount =? CHARS_PER_LINE / 4)
                then emit newline (encode_loop breakLines plainchar step_A result 0)
                else encode_loop breakLines plainchar step_A result stepcount))
      end
  end.

(** Returns the characters written to [code_out] (their number is the C
    return value) and the state left in [*state_in]. *)
Definition base64_encode_block (plaintext_in : list Z)
    (state_in : base64_encodestate) (breakLines : bool)
  : list Z * base64_encodestate :=
  encode_loop breakLines plaintext_in
    (enc_step state_in) (enc_result state_in) (enc_stepcount state_in).

Definition base64_encode_blockend (state_in : base64_encodestate)
    (breakLines : bool) : list Z * base64_encodestate :=
  let '(code, stepcount) :=
    match enc_step state_in with
    | step_B =>
        ([base64_encode_value (enc_result state_in); chr "="; chr "="],
         enc_stepcount state_in + 1)
    | step_C =>
        ([base64_encode_value (enc_result state_in); chr "="],
         enc_stepcount state_in + 1)
    | step_A => ([], enc_stepcount state_in)
    end in
  (code ++ (if breakLines && (0 <? stepcount) then [newline] else []),
   {| enc_step := enc_step state_in;
      enc_result := enc_result state_in;
      enc_stepcount := stepcount |}).

(** The size of the string [base64Encode] allocates before it encodes:
    [numChars] is a [size_t] and [lineCount] a [uint]. *)
Definition encoded_size (size : Z) (breakLines : bool) : Z :=
  let numChars := to_size_t (to_size_t (size + 2) / 3 * 4) in
  if breakLines then
    let lineCount := to_uint (numChars / CHARS_PER_LINE) in
    let lineCount :=
      if 0 <? numChars mod CHARS_PER_LINE then to_uint (lineCount + 1)
      else lineCount in
    to_size_t (numChars + lineCount)
  else numChars.

(** [input.size()] becomes the [int length_in] of [base64_encode_block],
    which reads that many elements; each call returns the number of
    characters it wrote as an [int], which [cnt] holds and [total], a
    [size_t], adds up.  [None] is a run that returns no string:
    [KJ_ASSERT(total == output.size())] fails, or [length_in] is negative,
    [plaintextend] lies in front of the input and the loop runs off its
    end. *)
Definition base64Encode (input : list Z) (breakLines : bool) : option (list Z) :=
  let numChars := encoded_size (len input) breakLines in
  let total := 0 in
  let s := base64_init_encodestate in
  let length_in := to_int (len input) in
  if length_in <? 0 then None
  else
    let '(block, s) :=
      base64_encode_block (firstn (Z.to_nat length_in) input) s breakLines in
    let cnt := to_int (len block) in
    let total := to_size_t (total + cnt) in
    let '(blockend, _) := base64_encode_blockend s breakLines in
    let cnt := to_int (len blockend) in
    let total := to_size_t (total + cnt) in
    if total =? numChars then Some (block ++ blockend) else None.

(** ** Decoder *)

Inductive base64_decodestep : Type := step_a | step_b | step_c | step_d.

Record base64_decodestate : Type := {
  dec_step : base64_decodestep;
  dec_plainchar : Z
}.

Definition decoding : list Z :=
  [62;-1;-1;-1;63;52;53;54;55;56;57;58;59;60;61;-1;-1;-1;-2;-1;-1;-1;
   0;1;2;3;4;5;6;7;8;9;10;11;12;13;14;15;16;17;18;19;20;21;22;23;24;25;-1;-1;-1;-1;-1;-1;
   26;27;28;29;30;31;32;33;34;35;36;37;38;39;40;41;42;43;44;45;46;47;48;49;50;51].

Definition decoding_size : Z := Eval cbv in len decoding.

Definition base64_init_decodestate : base64_decodestate :=
  {| dec_step := step_a; dec_plainchar := 0 |}.

(** The memory the decoder writes through [plaintext_out]: [cell i] is the
    [char] at [plaintext_out + i], whether or not it belongs to the array;
    the array has [limit] elements, and [within] records that every access
    made so far fell inside it. *)
Record plaintext : Type := {
  cell : nat -> Z;
  limit : nat;
  within : bool
}.

Definition load (p : nat) (out : plaintext) : Z * plaintext :=
  (to_char (cell out p),
   {| cell := cell out; limit := limit out;
      within := within out && (p <? limit out)%nat |}).

Definition store (p : nat) (c : Z) (out : plaintext) : plaintext :=
  {| cell := fun i => if (i =? p)%nat then to_char c else cell out i;
     limit := limit out;
     within := within out && (p <? limit out)%nat |}.

(** [*p |= c] *)
Definition store_or (p : nat) (c : Z) (out : plaintext) : plaintext :=
  let '(old, out) := load p out in store p (Z.lor old c) out.

Definition note (in_table : bool) (out : plaintext) : plaintext :=
  {| cell := cell out; limit := limit out; within := within out && in_table |}.

(** What [kj::heapArray<byte>] hands out and what lies behind it. *)
Definition heapArray (heap : nat -> Z) (size : nat) : plaintext :=
  {| cell := heap; limit := size; within := true |}.

(** The first [n] elements, read as [byte]s. *)
Definition bytes_of (n : nat) (out : plaintext) : list Z :=
  map (fun i => to_byte (cell out i)) (seq 0 n).

Record decoded : Type := {
  decoded_bytes : list Z;
  decoded_within : bool
}.

Section Decoder.

(** The [char] that the object file holds directly behind [decoding]. *)
Variable behind_decoding : Z.

(** The value returned, and whether the table was indexed inside its
    bounds (or not indexed at all). *)
Definition base64_decode_value (value_in : Z) : Z * bool :=
  let value_in := to_char (value_in - 43) in
  if (value_in <? 0) || (decoding_size <? value_in) then (-1, true)
  else
    match nth_error decoding (Z.to_nat value_in) with
    | Some v => (v, true)
    | None => (behind_decoding, false)
    end.

(** The body of [while (1)] in [base64_decode_block], entered at [st];
    [plainchar] is the offset of the pointer of that name from
    [plaintext_out]. *)
Fixpoint decode_loop (codechar : list Z) (st : base64_decodestep)
    (plainchar : nat) (out : plaintext)
  : nat * base64_decodestate * plaintext :=
  match codechar with
  | [] =>
      let '(c, out) := load plainchar out in
      (plainchar, {| dec_step := st; dec_plainchar := c |}, out)
  | c :: codechar =>
      let '(v, in_table) := base64_decode_value c in
      let out := note in_table out in
      let fragment := to_char v in
      if fragment <? 0 then decode_loop codechar st plainchar out
      else
        match st with
        | step_a =>
            let out := store plainchar (Z.shiftl (Z.land fragment 0x03f) 2) out in
            decode_loop codechar step_b plainchar out
        | step_b =>
            let out := store_or plainchar (Z.shiftr (Z.land fragment 0x030) 4) out in
            let plainchar := S plainchar in
            let out := store plainchar (Z.shiftl (Z.land fragment 0x00f) 4) out in
            decode_loop codechar step_c plainchar out
        | step_c =>
            let out := store_or plainchar (Z.shiftr (Z.land fragment 0x03c) 2) out in
            let plainchar := S plainchar in
            let out := store plainchar (Z.shiftl (Z.land fragment 0x003) 6) out in
            decode_loop codechar step_d plainchar out
        | step_d =>
            let out := store_or plainchar (Z.land fragment 0x03f) out in
            let plainchar := S plainchar in
            decode_loop codechar step_a plainchar out
        end
  end.

(** Returns the number of bytes written, the state left in [*state_in]
    and the memory behind [plaintext_out]. *)
Definition base64_decode_block (code_in : list Z) (plaintext_out : plaintext)
    (state_in : base64_decodestate)
  : nat * base64_decodestate * plaintext :=
  let out := store 0 (dec_plainchar state_in) plaintext_out in
  decode_loop code_in (dec_step state_in) 0%nat out.

(** [heap] is the content of the memory the output array is allocated in
    (the array is not initialised). *)
Definition base64Decode (heap : nat -> Z) (input : list Z) : decoded :=
  let state := base64_init_decodestate in
  let size := Z.to_nat ((len input * 6 + 7) / 8) in
  let output := heapArray heap size in
  let '(n, _, output) := base64_decode_block input output state in
  {| decoded_bytes :=
       if (n <? size)%nat then bytes_of n output else bytes_of size output;
     decoded_within := within output |}.

End Decoder.

(** ** Notions the properties are stated with *)

(** One encoder state fed the consecutive slices [chunks]. *)
Fixpoint encode_chunks (chunks : list (list Z)) (state_in : base64_encodestate)
    (breakLines : bool) : list Z * base64_encodestate :=
  match chunks with
  | [] => ([], state_in)
  | chunk :: chunks =>
      let '(code, s) := base64_encode_block chunk state_in breakLines in
      let '(rest, s) := encode_chunks chunks s breakLines in
      (code ++ rest, s)
  end.


(** [ceil(a / b)] for positive [b]. *)
Definition ceil_div (a b : Z) : Z := (a + b - 1) / b.

(** The output length in the specification's words:
    [ceil(n/3)*4] plus, with line-wrapping, [ceil(totalChars / 72)]. *)
Definition spec_length (n : Z) (breakLines : bool) : Z :=
  let totalChars := ceil_div n 3 * 4 in
  totalChars + (if breakLines then ceil_div totalChars 72 else 0).

(** The characters behind the last newline of [code]. *)
Fixpoint current_line (line code : list Z) : list Z :=
  match code with
  | [] => line
  | c :: code =>
      if c =? newline then current_line [] code
      else current_line (line ++ [c]) code
  end.

Definition is_byte (b : Z) : Prop := 0 <= b < 256.

Definition is_char (c : Z) : Prop := -128 <= c < 128.

(** One of the 64 symbols of the alphabet. *)
Definition is_symbol (c : Z) : bool := existsb (Z.eqb c) encoding.

(** The symbol of the 6-bit value [v]. *)
Definition symbol (v : Z) : Z := nth (Z.to_nat v) encoding 0.

(** One of the characters the encoder writes. *)
Definition is_written (c : Z) : bool :=
  is_symbol c || (c =? chr "=") || (c =? newline).

(** What the decoder does with [c]: it is consumed as a 6-bit value when
    the value [base64_decode_value] returns, as a [char], is not negative. *)
Definition consumed (behind_decoding c : Z) : bool :=
  0 <=? to_char (fst (base64_decode_value behind_decoding c)).

(** ** Definitions the proofs use *)

(** Number of input bytes of the current group already consumed. *)
Definition consumed_of (st : base64_encodestep) : Z :=
  match st with step_A => 0 | step_B => 1 | step_C => 2 end.

(** The 6-bit quantities the encoder computes, as functions of the input
    bytes: the four symbols of a group of three bytes, and the bits carried
    in [result] after one and after two bytes. *)
Definition sextet1 (x : Z) : Z :=
  to_char (Z.shiftr (Z.land (to_char x) 0x0fc) 2).

Definition carry1 (x : Z) : Z :=
  to_char (Z.shiftl (Z.land (to_char x) 0x003) 4).

Definition sextet2 (r y : Z) : Z :=
  to_char (Z.lor r (Z.shiftr (Z.land (to_char y) 0x0f0) 4)).

Definition carry2 (y : Z) : Z :=
  to_char (Z.shiftl (Z.land (to_char y) 0x00f) 2).

Definition sextet3 (r z : Z) : Z :=
  to_char (Z.lor r (Z.shiftr (Z.land (to_char z) 0x0c0) 6)).

Definition sextet4 (z : Z) : Z :=
  to_char (Z.shiftr (Z.land (to_char z) 0x03f) 0).

Definition is_sextet (v : Z) : bool := (0 <=? v) && (v <=? 63).

(** The bytes the decoder assembles from consecutive 6-bit values. *)
Definition octet1 (v1 v2 : Z) : Z :=
  to_char (Z.lor (to_char (to_char (Z.shiftl (Z.land v1 0x03f) 2)))
                 (Z.shiftr (Z.land v2 0x030) 4)).

Definition octet2 (v2 v3 : Z) : Z :=
  to_char (Z.lor (to_char (to_char (Z.shiftl (Z.land v2 0x00f) 4)))
                 (Z.shiftr (Z.land v3 0x03c) 2)).

Definition octet3 (v3 v4 : Z) : Z :=
  to_char (Z.lor (to_char (to_char (Z.shiftl (Z.land v3 0x003) 6)))
                 (Z.land v4 0x03f)).

Definition index_of (st : base64_decodestep) : Z :=
  match st with step_a => 0 | step_b => 1 | step_c => 2 | step_d => 3 end.

(** What a run computes: the count returned, the state stored and the
    memory content; they do not depend on the size of the array. *)
Definition values (r : nat * base64_decodestate * plaintext)
  : nat * base64_decodestate * (nat -> Z) :=
  (fst (fst r), snd (fst r), cell (snd r)).

(** Exhaustive checks over an initial segment of the integers. *)
Fixpoint below (n : nat) (f : Z -> bool) : bool :=
  match n with
  | O => true
  | S n => f (Z.of_nat n) && below n f
  end.

(** ** Streaming use of the decoder *)



(** ** The shape of wrapped output *)

(** [wrapped k code]: [code] continues a line that holds [k] characters
    already, every line is closed by a newline, and every line but the last
    holds 72 characters. *)
Inductive wrapped : Z -> list Z -> Prop :=
| wrapped_nil : wrapped 0 []
| wrapped_last k : 0 < k <= 72 -> wrapped k [newline]
| wrapped_break code : wrapped 0 code -> wrapped 72 (newline :: code)
| wrapped_char k c code :
    c <> newline -> 0 <= k < 72 -> wrapped (k + 1) code ->
    wrapped k (c :: code).

(** The number of [=] that close the encoding of [n] bytes. *)
Definition padding (n : Z) : nat :=
  (if (n mod 3 =? 1)%Z then 2 else if (n mod 3 =? 2)%Z then 1 else 0)%nat.

(** ** Text helpers of [util.c++] *)

Section Text.

(** [isspace] of [<ctype.h>], which depends on the locale. *)
Variable isspace : Z -> bool.

(** The first loop of [trimArray]. *)
Fixpoint trim_front (slice : list Z) : list Z :=
  match slice with
  | [] => []
  | c :: rest => if isspace c then trim_front rest else slice
  end.

(** The second loop of [trimArray]; [turns] bounds the number of turns, the
    size of the slice at its start. *)
Fixpoint trim_back (turns : nat) (slice : list Z) : list Z :=
  match turns with
  | O => slice
  | S turns =>
      match slice with
      | [] => slice
      | _ :: _ =>
          if isspace (last slice 0) then trim_back turns (removelast slice)
          else slice
      end
  end.

Definition trimArray (slice : list Z) : list Z :=
  let slice := trim_front slice in
  trim_back (length slice) slice.

Definition trim (slice : list Z) : list Z := trimArray slice.

(** [results.add(line)] when [line.size() > 0]. *)
Definition add_line (line : list Z) (results : list (list Z)) : list (list Z) :=
  match trim line with
  | [] => results
  | line => line :: results
  end.

(** The loop of [splitLines] and the code behind it.  [line] is
    [input.slice(lineStart, i)]; [comment] says that the walk is inside the
    inner loop that skips from a [#] through the next newline. *)
Fixpoint splitLines_from (input line : list Z) (comment : bool)
  : list (list Z) :=
  match input with
  | [] => add_line line []
  | c :: input =>
      if comment then
        if c =? newline then splitLines_from input [] false
        else splitLines_from input [] true
      else if (c =? newline) || (c =? chr "#") then
        add_line line (splitLines_from input [] (c =? chr "#"))
      else splitLines_from input (line ++ [c]) false
  end.

Definition splitLines (input : list Z) : list (list Z) :=
  splitLines_from input [] false.

End Text.

Definition toLower (text : list Z) : list Z :=
  map (fun c =>
         if (chr "A" <=? c) && (c <=? chr "Z")
         then to_char (c - chr "A" + chr "a") else c)
      text.

(** The loop of [split]; [piece] is [input.slice(start, i)]. *)
Fixpoint split_from (input : list Z) (delim : Z) (piece : list Z)
  : list (list Z) :=
  match input with
  | [] => [piece]
  | c :: input =>
      if c =? delim then piece :: split_from input delim []
      else split_from input delim (piece ++ [c])
  end.

Definition split (input : list Z) (delim : Z) : list (list Z) :=
  split_from input delim [].

(** The loop of [splitFirst]; [piece] is [input.slice(0, i)].  Returns the
    result and the new value of the reference [input]; [None] is [nullptr],
    with [input] unchanged. *)
Fixpoint splitFirst_from (input : list Z) (delim : Z) (piece : list Z)
  : option (list Z * list Z) :=
  match input with
  | [] => None
  | c :: input =>
      if c =? delim then Some (piece, input)
      else splitFirst_from input delim (piece ++ [c])
  end.

Definition splitFirst (input : list Z) (delim : Z)
  : option (list Z * list Z) :=
  splitFirst_from input delim [].

(** [kj::StringPtr::findFirst]. *)
Fixpoint findFirst (s : list Z) (c : Z) : option nat :=
  match s with
  | [] => None
  | x :: s =>
      if x =? c then Some O
      else match findFirst s c with
           | Some pos => Some (S pos)
           | None => None
           end
  end.

(** [kj::StringPtr::startsWith]. *)
Fixpoint startsWith (s prefix : list Z) {struct prefix} : bool :=
  match prefix, s with
  | [], _ => true
  | _ :: _, [] => false
  | p :: prefix, x :: s => (x =? p) && startsWith s prefix
  end.

(** The first loop of [extractHostFromUrl]. *)
Fixpoint skip_lower (url : list Z) : list Z :=
  match url with
  | [] => []
  | c :: rest =>
      if (chr "a" <=? c) && (c <=? chr "z") then skip_lower rest else url
  end.

(** [None] is the exception of [KJ_REQUIRE]. *)
Definition extractHostFromUrl (url : list Z) : option (list Z) :=
  let url := skip_lower url in
  if startsWith url (text "://") then
    let url := skipn 3 url in
    match findFirst url (chr "/") with
    | Some slashPos => Some (firstn slashPos url)
    | None => Some url
    end
  else None.

(** [None] is the exception of [KJ_FAIL_REQUIRE]. *)
Definition extractProtocolFromUrl (url : list Z) : option (list Z) :=
  match findFirst url (chr ":") with
  | Some colonPos => Some (firstn colonPos url)
  | None => None
  end.

(** A [kj::BufferedInputStream] is the list of the buffers it will hand
    out: [tryGetReadBuffer] returns the first (the empty buffer when none
    is left), [skip] drops bytes from it and drops it when none is left. *)
Definition skip (n : nat) (input : list (list Z)) : list (list Z) :=
  match input with
  | [] => []
  | buffer :: more =>
      match skipn n buffer with
      | [] => more
      | rest => rest :: more
      end
  end.

Inductive line_read : Type :=
| Line (line : list Z) (input : list (list Z))
| EndOfInput
| PartialLine.

(** The inner loop of [readLine] over one buffer: the characters in front
    of the first newline and its index, or [None]. *)
Fixpoint scan_line (buffer : list Z) : option (list Z * nat) :=
  match buffer with
  | [] => None
  | c :: buffer =>
      if c =? newline then Some ([], O)
      else match scan_line buffer with
           | Some (line, i) => Some (c :: line, S i)
           | None => None
           end
  end.

(** The outer loop of [readLine]; the first buffer of [input] is what
    [tryGetReadBuffer] returns.  [EndOfInput] is [nullptr] and
    [PartialLine] the exception of [KJ_REQUIRE]. *)
Fixpoint readLine_from (input : list (list Z)) (result : list Z) : line_read :=
  match input with
  | [] => match result with [] => EndOfInput | _ :: _ => PartialLine end
  | [] :: _ => match result with [] => EndOfInput | _ :: _ => PartialLine end
  | (_ :: _) as buffer :: more =>
      match scan_line buffer with
      | Some (line, i) => Line (result ++ line) (skip (S i) input)
      | None => readLine_from more (result ++ buffer)
      end
  end.

Definition readLine (input : list (list Z)) : line_read :=
  readLine_from input [].

(** ** Notions the properties of the text helpers are stated with *)

(** The pieces with [delim] between them. *)
Fixpoint join (delim : Z) (pieces : list (list Z)) : list Z :=
  match pieces with
  | [] => []
  | [piece] => piece
  | piece :: pieces => piece ++ delim :: join delim pieces
  end.

(** What stands in front of the first [#] of a line. *)
Definition before_hash (line : list Z) : list Z :=
  match splitFirst line (chr "#") with
  | Some (piece, _) => piece
  | None => line
  end.

Definition is_empty (line : list Z) : bool :=
  match line with [] => true | _ :: _ => false end.

Definition is_lower (c : Z) : bool := (chr "a" <=? c) && (c <=? chr "z").

(** The lines of a text as [split], [splitFirst] and [trim] give them. *)
Definition lines_of (isspace : Z -> bool) (pieces : list (list Z))
  : list (list Z) :=
  filter (fun line => negb (is_empty line))
    (map (fun piece => trim isspace (before_hash piece)) pieces).

Definition is_upper (c : Z) : bool := (chr "A" <=? c) && (c <=? chr "Z").


(** ** [db.js] *)

(** The values of the fields of a user document, as far as [if], [&&]
    and [||] look at them: [to_boolean] is ECMAScript's [ToBoolean].
    Numbers are the integers and [NaN]; every object is [js_object]. *)
Inductive js_value : Type :=
| js_undefined
| js_null
| js_boolean (b : bool)
| js_number (n : Z)
| js_nan
| js_string (s : list Z)
| js_object.

Definition to_boolean (v : js_value) : bool :=
  match v with
  | js_undefined | js_null | js_nan => false
  | js_boolean b => b
  | js_number n => negb (n =? 0)
  | js_string [] => false
  | js_string (_ :: _) => true
  | js_object => true
  end.

(** [a || b] *)
Definition js_or (a b : js_value) : js_value :=
  if to_boolean a then a else b.

Record user_doc : Type := {
  user_isAdmin : js_value;
  user_signupKey : js_value;
  user_expires : js_value;
  user_profile : js_value
}.

(** The callback of [Accounts.onCreateUser]; [count] is
    [Meteor.users.find().count()] and [profile] is [options.profile]. *)
Definition onCreateUser (count : nat) (profile : js_value) (user : user_doc)
  : user_doc :=
  let user :=
    match count with
    | O => {| user_isAdmin := js_boolean true;
              user_signupKey := js_string (text "admin");
              user_expires := user_expires user;
              user_profile := user_profile user |}
    | S _ => user
    end in
  if to_boolean profile
  then {| user_isAdmin := user_isAdmin user;
          user_signupKey := user_signupKey user;
          user_expires := user_expires user;
          user_profile := profile |}
  else user.

(** The argument is what [Meteor.user()] returns: [None] is [null]. *)
Definition isDemoUser (user : option user_doc) : bool :=
  match user with
  | Some user => to_boolean (user_expires user)
  | None => false
  end.

Definition isSignedUp (user : option user_doc) : bool :=
  match user with
  | Some user => to_boolean (user_signupKey user)
  | None => false
  end.

Definition isSignedUpOrDemo (user : option user_doc) : bool :=
  match user with
  | Some user => to_boolean (js_or (user_signupKey user) (user_expires user))
  | None => false
  end.

Definition isAdmin (user : option user_doc) : bool :=
  match user with
  | Some user => to_boolean (user_isAdmin user)
  | None => false
  end.

(** JavaScript strings are lists of code units.  [String.prototype.indexOf],
    [lastIndexOf] and [slice] as ECMAScript defines them, for integer
    arguments; -1 is "not found". *)
Fixpoint indexOf_loop (s search : list Z) (k : nat) : Z :=
  if startsWith s search then Z.of_nat k
  else match s with
       | [] => -1
       | _ :: s => indexOf_loop s search (S k)
       end.

Definition indexOf (s search : list Z) (position : Z) : Z :=
  let start := Z.to_nat (Z.min (Z.max position 0) (len s)) in
  indexOf_loop (skipn start s) search start.

Fixpoint lastIndexOf_loop (s search : list Z) (k : nat) : Z :=
  if startsWith (skipn k s) search then Z.of_nat k
  else match k with
       | O => -1
       | S k => lastIndexOf_loop s search k
       end.

Definition lastIndexOf (s search : list Z) (position : Z) : Z :=
  lastIndexOf_loop s search (Z.to_nat (Z.min (Z.max position 0) (len s))).

Definition slice (s : list Z) (start end_ : Z) : list Z :=
  let from := if start <? 0 then Z.max (len s + start) 0 else Z.min start (len s) in
  let to := if end_ <? 0 then Z.max (len s + end_) 0 else Z.min end_ (len s) in
  firstn (Z.to_nat (Z.max (to - from) 0)) (skipn (Z.to_nat from) s).

(** [id.match(/^[a-z0-9]*$/)] is not [null]. *)
Definition is_id_char (c : Z) : bool :=
  ((chr "a" <=? c) && (c <=? chr "z")) || ((chr "0" <=? c) && (c <=? chr "9")).

Inductive host_match : Type :=
| HostId (id : list Z)
| HostNull
| HostTypeError.

Section WildcardHost.

(** [Meteor.settings.public.wildcardHost] *)
Variable setting : list Z.

(** [String.prototype.split] with a separator of one code unit cuts as
    [split] does. *)
Definition wildcardHost : list (list Z) := split setting (chr "*").

(** [HostTypeError] is the exception of [suffix.length] where
    [wildcardHost[1]] is [undefined]. *)
Definition matchWildcardHost (host : list Z) : host_match :=
  let prefix := nth 0 wildcardHost [] in
  if 0 <=? lastIndexOf host prefix 0 then
    match nth_error wildcardHost 1 with
    | None => HostTypeError
    | Some suffix =>
        if (0 <=? indexOf host suffix (- len suffix)) &&
           (len prefix + len suffix <=? len host)
        then
          let id := slice host (len prefix) (- len suffix) in
          if forallb is_id_char id then HostId id else HostNull
        else HostNull
    end
  else HostNull.

(** [+] turns [undefined] into the text [undefined]. *)
Definition makeWildcardHost (id : list Z) : list Z :=
  nth 0 wildcardHost [] ++ id ++
  match nth_error wildcardHost 1 with
  | Some suffix => suffix
  | None => text "undefined"
  end.

End WildcardHost.

(** * Properties *)

(** ** Characters *)

Lemma to_char_id z : is_char z -> to_char z = z.
Proof.
  unfold is_char, to_char. intros H.
  rewrite Z.mod_small by lia. lia.
Qed.


Lemma below_spec n f :
  below n f = true <-> (forall z, 0 <= z < Z.of_nat n -> f z = true).
Proof.
  induction n as [|n IH]; simpl.
  - split; [intros _ z Hz; lia | reflexivity].
  - rewrite andb_true_iff, IH. split.
    + intros [H0 H] z Hz.
      destruct (Z.eq_dec z (Z.of_nat n)) as [->|Hne]; [assumption|].
      apply H. lia.
    + intros H. split; [apply H; lia | intros z Hz; apply H; lia].
Qed.

Lemma bytes_all (f : Z -> bool) :
  below 256 f = true -> forall b, is_byte b -> f b = true.
Proof. intros H b Hb. apply (proj1 (below_spec 256 f) H). exact Hb. Qed.

Lemma byte_pairs_all (f : Z -> Z -> bool) :
  below 256 (fun x => below 256 (f x)) = true ->
  forall x y, is_byte x -> is_byte y -> f x y = true.
Proof.
  intros H x y Hx Hy.
  apply (bytes_all (f x)); [|exact Hy].
  apply (bytes_all (fun x => below 256 (f x)) H x Hx).
Qed.

Lemma chars_all (f : Z -> bool) :
  below 256 (fun z => f (z - 128)) = true -> forall c, is_char c -> f c = true.
Proof.
  intros H c Hc.
  replace c with ((c + 128) - 128) by lia.
  apply (bytes_all (fun z => f (z - 128)) H). unfold is_char, is_byte in *. lia.
Qed.

(** Settles an equation between integers for all bytes [x], or all pairs
    of bytes [x] and [y], by checking the boolean test [f] on each. *)
Ltac by_bytes f :=
  apply Z.eqb_eq; apply (bytes_all f); [vm_compute; reflexivity | assumption].

Ltac by_byte_pairs f :=
  apply Z.eqb_eq; apply (byte_pairs_all f);
  [vm_compute; reflexivity | assumption | assumption].

(** ** The encoder *)

Lemma fst_emit {S : Type} c (r : list Z * S) : fst (emit c r) = c :: fst r.
Proof. reflexivity. Qed.

Lemma snd_emit {S : Type} c (r : list Z * S) : snd (emit c r) = snd r.
Proof. reflexivity. Qed.

Lemma len_cons {A : Type} (a : A) l : len (a :: l) = 1 + len l.
Proof. unfold len. simpl List.length. lia. Qed.

Lemma len_app {A : Type} (l1 l2 : list A) : len (l1 ++ l2) = len l1 + len l2.
Proof. unfold len. rewrite length_app. lia. Qed.

Lemma len_nil : len (@nil Z) = 0.
Proof. reflexivity. Qed.

Lemma len_nonneg {A : Type} (l : list A) : 0 <= len l.
Proof. unfold len. lia. Qed.

Lemma encode_value_symbol v :
  0 <= v <= 63 -> is_symbol (base64_encode_value v) = true.
Proof.
  intros Hv. unfold base64_encode_value.
  destruct (63 <? v) eqn:E; [apply Z.ltb_lt in E; lia|].
  assert (Hn : (Z.to_nat v < 64)%nat) by lia.
  revert Hn. generalize (Z.to_nat v). intros n Hn.
  do 64 (destruct n as [|n]; [reflexivity|]). lia.
Qed.

Lemma encode_value_pad v : 63 < v -> base64_encode_value v = chr "=".
Proof.
  intros Hv. unfold base64_encode_value.
  destruct (63 <? v) eqn:E; [reflexivity | apply Z.ltb_ge in E; lia].
Qed.

Lemma symbol_not_newline c : is_symbol c = true -> c <> newline.
Proof. intros H ->. discriminate H. Qed.

Lemma encode_value_not_newline v :
  0 <= v <= 63 -> base64_encode_value v <> newline.
Proof. intros H. apply symbol_not_newline, encode_value_symbol, H. Qed.

Lemma is_sextet_range v : is_sextet v = true <-> 0 <= v <= 63.
Proof. unfold is_sextet. rewrite andb_true_iff, Z.leb_le, Z.leb_le. tauto. Qed.

Lemma to_char_mod x : to_char (x mod 256) = to_char x.
Proof.
  unfold to_char. f_equal.
  rewrite <- (Zplus_mod_idemp_l x 128 256). reflexivity.
Qed.

(** A property of the [char] read from any input element. *)
Lemma fragments_all (f : Z -> bool) :
  below 256 (fun x => f (to_char x)) = true -> forall x, f (to_char x) = true.
Proof.
  intros H x. rewrite <- to_char_mod.
  apply (bytes_all (fun x => f (to_char x)) H).
  apply Z.mod_pos_bound. reflexivity.
Qed.

Lemma sextet1_range x : 0 <= sextet1 x <= 63.
Proof.
  apply is_sextet_range. unfold sextet1.
  apply (fragments_all (fun c => is_sextet (to_char (Z.shiftr (Z.land c 0x0fc) 2)))).
  vm_compute. reflexivity.
Qed.

Lemma carry1_range x : 0 <= carry1 x <= 63.
Proof.
  apply is_sextet_range. unfold carry1.
  apply (fragments_all (fun c => is_sextet (to_char (Z.shiftl (Z.land c 0x003) 4)))).
  vm_compute. reflexivity.
Qed.

Lemma carry2_range x : 0 <= carry2 x <= 63.
Proof.
  apply is_sextet_range. unfold carry2.
  apply (fragments_all (fun c => is_sextet (to_char (Z.shiftl (Z.land c 0x00f) 2)))).
  vm_compute. reflexivity.
Qed.

Lemma sextet4_range x : 0 <= sextet4 x <= 63.
Proof.
  apply is_sextet_range. unfold sextet4.
  apply (fragments_all (fun c => is_sextet (to_char (Z.shiftr (Z.land c 0x03f) 0)))).
  vm_compute. reflexivity.
Qed.

Lemma sextet2_range r y : 0 <= r <= 63 -> 0 <= sextet2 r y <= 63.
Proof.
  intros Hr. apply is_sextet_range. unfold sextet2.
  apply (fragments_all
    (fun c => is_sextet (to_char (Z.lor r (Z.shiftr (Z.land c 0x0f0) 4))))).
  apply (proj1 (below_spec 64
    (fun r => below 256 (fun x =>
       is_sextet (to_char (Z.lor r (Z.shiftr (Z.land (to_char x) 0x0f0) 4))))))).
  - vm_compute. reflexivity.
  - lia.
Qed.

Lemma sextet3_range r z : 0 <= r <= 63 -> 0 <= sextet3 r z <= 63.
Proof.
  intros Hr. apply is_sextet_range. unfold sextet3.
  apply (fragments_all
    (fun c => is_sextet (to_char (Z.lor r (Z.shiftr (Z.land c 0x0c0) 6))))).
  apply (proj1 (below_spec 64
    (fun r => below 256 (fun x =>
       is_sextet (to_char (Z.lor r (Z.shiftr (Z.land (to_char x) 0x0c0) 6))))))).
  - vm_compute. reflexivity.
  - lia.
Qed.

Create HintDb sextets.

#[local] Hint Resolve sextet1_range carry1_range sextet2_range carry2_range
  sextet3_range sextet4_range : sextets.

(** One turn of the loop, by the step it is entered at. *)
Lemma encode_loop_A lb x b r sc :
  encode_loop lb (x :: b) step_A r sc =
  emit (base64_encode_value (sextet1 x))
    (encode_loop lb b step_B (carry1 x) sc).
Proof. reflexivity. Qed.

Lemma encode_loop_B lb y b r sc :
  encode_loop lb (y :: b) step_B r sc =
  emit (base64_encode_value (sextet2 r y))
    (encode_loop lb b step_C (carry2 y) sc).
Proof. reflexivity. Qed.

Lemma encode_loop_C lb z b r sc :
  encode_loop lb (z :: b) step_C r sc =
  emit (base64_encode_value (sextet3 r z))
    (emit (base64_encode_value (sextet4 z))
       (if lb && (sc + 1 =? 18)
        then emit newline (encode_loop lb b step_A (sextet4 z) 0)
        else encode_loop lb b step_A (sextet4 z) (sc + 1))).
Proof. reflexivity. Qed.

(** Feeding [a ++ b] is feeding [a], then [b] to the state [a] left. *)
Lemma encode_loop_app lb a b : forall st r sc,
  encode_loop lb (a ++ b) st r sc =
  let s := snd (encode_loop lb a st r sc) in
  (fst (encode_loop lb a st r sc) ++
     fst (encode_loop lb b (enc_step s) (enc_result s) (enc_stepcount s)),
   snd (encode_loop lb b (enc_step s) (enc_result s) (enc_stepcount s))).
Proof.
  induction a as [|x a IH]; intros st r sc.
  - simpl. destruct (encode_loop lb b st r sc); reflexivity.
  - destruct st; cbn [app encode_loop].
    + rewrite IH. reflexivity.
    + rewrite IH. reflexivity.
    + destruct (lb && (sc + 1 =? CHARS_PER_LINE / 4)); rewrite IH; reflexivity.
Qed.

Lemma encode_block_app a b s lb :
  base64_encode_block (a ++ b) s lb =
  let s1 := snd (base64_encode_block a s lb) in
  (fst (base64_encode_block a s lb) ++ fst (base64_encode_block b s1 lb),
   snd (base64_encode_block b s1 lb)).
Proof. unfold base64_encode_block. apply encode_loop_app. Qed.

(** What one state writes until the end, from a position inside a line. *)
Lemma encode_loop_length lb b : forall st r sc,
  (lb = true -> 0 <= sc < 18) ->
  let run := encode_loop lb b st r sc in
  let groups := (len b + consumed_of st + 2) / 3 in
  len (fst run) + len (fst (base64_encode_blockend (snd run) lb)) =
  4 * groups - consumed_of st + (if lb then (groups + sc + 17) / 18 else 0).
Proof.
  induction b as [|x b IH]; intros st r sc Hsc; cbv zeta.
  - cbn [encode_loop fst snd]. unfold base64_encode_blockend.
    cbn [enc_step enc_result enc_stepcount]. rewrite len_nil.
    destruct st, lb; cbn [consumed_of andb fst snd];
      try (specialize (Hsc eq_refl));
      repeat match goal with
             | |- context [0 <? ?z] => destruct (Z.ltb_spec 0 z)
             end;
      rewrite ?app_nil_r, ?len_app, ?len_cons, ?len_nil;
      Z.div_mod_to_equations; lia.
  - destruct st; cbn [encode_loop]; rewrite ?len_cons.
    + rewrite fst_emit, snd_emit, len_cons.
      specialize (IH step_B (to_char (Z.shiftl (Z.land (to_char x) 3) 4)) sc Hsc).
      cbv zeta in IH. cbn [consumed_of] in *.
      replace (len b + 1 + 2) with (1 + len b + 0 + 2) in IH by lia.
      lia.
    + rewrite fst_emit, snd_emit, len_cons.
      specialize (IH step_C (to_char (Z.shiftl (Z.land (to_char x) 15) 2)) sc Hsc).
      cbv zeta in IH. cbn [consumed_of] in *.
      replace (len b + 2 + 2) with (1 + len b + 1 + 2) in IH by lia.
      lia.
    + rewrite !fst_emit, !snd_emit, !len_cons.
      change (CHARS_PER_LINE / 4) with 18.
      pose proof (len_nonneg b) as Hb.
      destruct lb; cbn [andb consumed_of].
      * specialize (Hsc eq_refl).
        destruct (Z.eqb_spec (sc + 1) 18) as [E|E].
        -- rewrite fst_emit, snd_emit, len_cons.
           specialize (IH step_A
             (to_char (Z.shiftr (Z.land (to_char x) 63) 0)) 0 ltac:(lia)).
           cbv zeta in IH. cbn [consumed_of] in IH.
           revert IH.
           Z.div_mod_to_equations; lia.
        -- specialize (IH step_A
             (to_char (Z.shiftr (Z.land (to_char x) 63) 0)) (sc + 1) ltac:(lia)).
           cbv zeta in IH. cbn [consumed_of] in IH.
           revert IH.
           Z.div_mod_to_equations; lia.
      * specialize (IH step_A
          (to_char (Z.shiftr (Z.land (to_char x) 63) 0)) (sc + 1)
          ltac:(discriminate)).
        cbv zeta in IH. cbn [consumed_of] in IH.
        revert IH.
        Z.div_mod_to_equations; lia.
Qed.

Lemma newlines_cons c l :
  c <> newline -> filter (Z.eqb newline) (c :: l) = filter (Z.eqb newline) l.
Proof.
  intros H. cbn [filter].
  destruct (Z.eqb_spec newline c); [congruence|reflexivity].
Qed.

(** The newlines one state writes until the end. *)
Lemma encode_loop_newlines lb b : forall st r sc,
  0 <= r <= 63 ->
  (lb = true -> 0 <= sc < 18) ->
  let run := encode_loop lb b st r sc in
  let groups := (len b + consumed_of st + 2) / 3 in
  len (filter (Z.eqb newline)
         (fst run ++ fst (base64_encode_blockend (snd run) lb))) =
  if lb then (groups + sc + 17) / 18 else 0.
Proof.
  induction b as [|x b IH]; intros st r sc Hr Hsc; cbv zeta.
  - cbn [encode_loop fst snd app]. unfold base64_encode_blockend.
    cbn [enc_step enc_result enc_stepcount]. rewrite len_nil.
    destruct st, lb; cbn [consumed_of andb fst snd app];
      try (specialize (Hsc eq_refl));
      rewrite ?newlines_cons by
        (first [apply encode_value_not_newline; exact Hr | discriminate]);
      repeat match goal with
             | |- context [0 <? ?z] => destruct (Z.ltb_spec 0 z)
             end;
      cbn [filter Z.eqb newline Pos.eqb]; rewrite ?len_cons, ?len_nil;
      Z.div_mod_to_equations; lia.
  - rewrite len_cons. pose proof (len_nonneg b) as Hb. destruct st.
    + rewrite encode_loop_A, fst_emit, snd_emit. cbn [app].
      rewrite newlines_cons by (apply encode_value_not_newline; auto with sextets).
      rewrite (IH step_B (carry1 x) sc (carry1_range x) Hsc). cbn [consumed_of].
      replace (1 + len b + 0 + 2) with (len b + 1 + 2) by lia. reflexivity.
    + rewrite encode_loop_B, fst_emit, snd_emit. cbn [app].
      rewrite newlines_cons by (apply encode_value_not_newline; auto with sextets).
      rewrite (IH step_C (carry2 x) sc (carry2_range x) Hsc). cbn [consumed_of].
      replace (1 + len b + 1 + 2) with (len b + 2 + 2) by lia. reflexivity.
    + rewrite encode_loop_C, !fst_emit, !snd_emit. cbn [app].
      rewrite !newlines_cons by (apply encode_value_not_newline; auto with sextets).
      destruct lb; cbn [andb consumed_of].
      * specialize (Hsc eq_refl).
        destruct (Z.eqb_spec (sc + 1) 18) as [E|E].
        -- rewrite fst_emit, snd_emit. cbn [app filter Z.eqb newline Pos.eqb].
           rewrite len_cons.
           rewrite (IH step_A (sextet4 x) 0 (sextet4_range x) ltac:(lia)).
           cbn [consumed_of]. Z.div_mod_to_equations; lia.
        -- rewrite (IH step_A (sextet4 x) (sc + 1) (sextet4_range x) ltac:(lia)).
           cbn [consumed_of]. Z.div_mod_to_equations; lia.
      * apply (IH step_A (sextet4 x) (sc + 1) (sextet4_range x) ltac:(discriminate)).
Qed.

Lemma to_int_id z : - 2147483648 <= z <= INT_MAX -> to_int z = z.
Proof.
  unfold to_int, INT_MAX. intros H. rewrite Z.mod_small by lia. lia.
Qed.

Lemma to_uint_id z : 0 <= z < 4294967296 -> to_uint z = z.
Proof. unfold to_uint. intros H. apply Z.mod_small. exact H. Qed.

Lemma to_size_t_id z : 0 <= z < 18446744073709551616 -> to_size_t z = z.
Proof. unfold to_size_t. intros H. apply Z.mod_small. exact H. Qed.

(** For a size that fits [int] nothing wraps while the size of the string
    is computed, and the size is the one of the specification. *)
Lemma encoded_size_spec n lb :
  0 <= n <= INT_MAX -> encoded_size n lb = spec_length n lb.
Proof.
  unfold encoded_size, spec_length, ceil_div, CHARS_PER_LINE, INT_MAX.
  intros Hn.
  replace (n + 3 - 1) with (n + 2) by lia.
  rewrite (to_size_t_id (n + 2)) by lia.
  assert (Hc : 0 <= (n + 2) / 3 * 4 <= 2863311532)
    by (Z.div_mod_to_equations; lia).
  rewrite (to_size_t_id ((n + 2) / 3 * 4)) by lia.
  destruct lb; [|lia].
  assert (Hl : 0 <= (n + 2) / 3 * 4 / 72 <= 39768215)
    by (Z.div_mod_to_equations; lia).
  rewrite (to_uint_id ((n + 2) / 3 * 4 / 72)) by lia.
  destruct (Z.ltb_spec 0 ((n + 2) / 3 * 4 mod 72)).
  - rewrite to_uint_id, to_size_t_id by lia.
    Z.div_mod_to_equations; lia.
  - rewrite to_size_t_id by lia.
    Z.div_mod_to_equations; lia.
Qed.

Lemma spec_length_bounds n lb :
  0 <= n -> n <= spec_length n lb /\ 3 * spec_length n lb <= 5 * n + 12.
Proof.
  unfold spec_length, ceil_div. intros Hn.
  destruct lb; Z.div_mod_to_equations; lia.
Qed.

(** What the two calls write has the length of the specification. *)
Lemma encode_init_length input lb :
  len (fst (base64_encode_block input base64_init_encodestate lb)) +
  len (fst (base64_encode_blockend
              (snd (base64_encode_block input base64_init_encodestate lb)) lb)) =
  spec_length (len input) lb.
Proof.
  pose proof (encode_loop_length lb input step_A 0 0 ltac:(lia)) as H.
  cbv zeta in H. cbn [consumed_of] in H.
  change (encode_loop lb input step_A 0 0)
    with (base64_encode_block input base64_init_encodestate lb) in H.
  rewrite H. unfold spec_length, ceil_div.
  pose proof (len_nonneg input).
  destruct lb; Z.div_mod_to_equations; lia.
Qed.

Lemma blockend_length s lb :
  0 <= len (fst (base64_encode_blockend s lb)) <= 4.
Proof.
  unfold base64_encode_blockend.
  destruct (enc_step s);
    destruct (lb && (0 <? _)); cbn [fst app];
    rewrite ?len_cons, ?len_nil; lia.
Qed.

Lemma firstn_len (input : list Z) : firstn (Z.to_nat (len input)) input = input.
Proof. unfold len. rewrite Nat2Z.id. apply firstn_all. Qed.

(** The one-shot driver on an input whose size fits [int]: it returns what
    the two calls wrote when the count of the first call fits [int], and
    fails its assertion otherwise. *)
Lemma base64Encode_cases input lb :
  len input <= INT_MAX ->
  base64Encode input lb =
  if len (fst (base64_encode_block input base64_init_encodestate lb)) <=? INT_MAX
  then Some (fst (base64_encode_block input base64_init_encodestate lb) ++
             fst (base64_encode_blockend
                    (snd (base64_encode_block input base64_init_encodestate lb)) lb))
  else None.
Proof.
  intros Hmax. unfold base64Encode. pose proof (len_nonneg input) as Hpos.
  rewrite (to_int_id (len input)) by (unfold INT_MAX in *; lia).
  destruct (Z.ltb_spec (len input) 0) as [?|_]; [lia|].
  rewrite firstn_len, encoded_size_spec by lia.
  pose proof (encode_init_length input lb) as Hsum.
  pose proof (spec_length_bounds (len input) lb Hpos) as [_ Hspec].
  destruct (base64_encode_block input base64_init_encodestate lb) as [block s].
  cbn [fst snd] in *.
  pose proof (blockend_length s lb) as Hend.
  destruct (base64_encode_blockend s lb) as [blockend s']. cbn [fst] in *.
  pose proof (len_nonneg block) as Hblock.
  rewrite (to_int_id (len blockend)) by (unfold INT_MAX; lia).
  unfold INT_MAX in *.
  destruct (Z.leb_spec (len block) 2147483647) as [Hfit|Hwrap].
  - rewrite (to_int_id (len block)) by (unfold INT_MAX; lia).
    rewrite (to_size_t_id (0 + len block)) by lia.
    rewrite to_size_t_id by lia.
    replace (0 + len block + len blockend) with (spec_length (len input) lb)
      by lia.
    rewrite Z.eqb_refl. reflexivity.
  - assert (Hcnt : to_int (len block) = len block - 4294967296).
    { unfold to_int.
      replace (len block + 2147483648)
        with (len block - 2147483648 + 1 * 4294967296) by lia.
      rewrite Z_mod_plus_full, Z.mod_small by lia. lia. }
    rewrite Hcnt.
    assert (Htotal : to_size_t (0 + (len block - 4294967296)) =
                     18446744073709551616 + (len block - 4294967296)).
    { unfold to_size_t.
      replace (0 + (len block - 4294967296))
        with (18446744073709551616 + (len block - 4294967296) +
              (-1) * 18446744073709551616) by lia.
      rewrite Z_mod_plus_full. apply Z.mod_small. lia. }
    rewrite Htotal, to_size_t_id by lia.
    destruct (Z.eqb_spec
                (18446744073709551616 + (len block - 4294967296) + len blockend)
                (spec_length (len input) lb)) as [E|_]; [lia|reflexivity].
Qed.

(** The assertion of the one-shot driver holds where the encoded text has
    at most [INT_MAX] characters: it returns what the two calls wrote. *)
Lemma base64Encode_eq input lb :
  spec_length (len input) lb <= INT_MAX ->
  base64Encode input lb =
  Some (fst (base64_encode_block input base64_init_encodestate lb) ++
        fst (base64_encode_blockend
               (snd (base64_encode_block input base64_init_encodestate lb)) lb)).
Proof.
  intros Hfit. pose proof (len_nonneg input) as Hpos.
  pose proof (spec_length_bounds (len input) lb Hpos) as [Hle _].
  rewrite base64Encode_cases by lia.
  pose proof (encode_init_length input lb) as Hsum.
  pose proof (blockend_length
                (snd (base64_encode_block input base64_init_encodestate lb)) lb).
  destruct (Z.leb_spec
              (len (fst (base64_encode_block input base64_init_encodestate lb)))
              INT_MAX); [reflexivity|lia].
Qed.

(** Whatever the driver returns is what the two calls wrote for the
    elements [base64_encode_block] read. *)
Lemma base64Encode_some input lb output :
  base64Encode input lb = Some output ->
  exists plaintext,
    output =
    fst (base64_encode_block plaintext base64_init_encodestate lb) ++
    fst (base64_encode_blockend
           (snd (base64_encode_block plaintext base64_init_encodestate lb)) lb).
Proof.
  unfold base64Encode.
  destruct (to_int (len input) <? 0); [discriminate|].
  exists (firstn (Z.to_nat (to_int (len input))) input).
  destruct (base64_encode_block
              (firstn (Z.to_nat (to_int (len input))) input)
              base64_init_encodestate lb) as [block s].
  cbn [fst snd].
  destruct (base64_encode_blockend s lb) as [blockend s']. cbn [fst].
  destruct (_ =? _); [|discriminate].
  injection H as <-. reflexivity.
Qed.

Lemma base64Encode_some_length input lb output :
  spec_length (len input) lb <= INT_MAX ->
  base64Encode input lb = Some output ->
  len output = spec_length (len input) lb.
Proof.
  intros Hfit. rewrite base64Encode_eq by exact Hfit.
  intros H. injection H as <-.
  rewrite len_app. apply encode_init_length.
Qed.

(** Where the encoded text has at most [INT_MAX] characters, the one-shot
    driver returns a string of length [ceil(n/3)*4] plus, with
    line-wrapping, [ceil(ceil(n/3)*4 / 72)] newlines: what the two calls
    write has the length computed beforehand, and the assertion holds. *)
Lemma base64Encode_exact_length (input : list Z) (breakLines : bool) :
  spec_length (len input) breakLines <= INT_MAX ->
  let block := base64_encode_block input base64_init_encodestate breakLines in
  let blockend := base64_encode_blockend (snd block) breakLines in
  len (fst block) + len (fst blockend) = encoded_size (len input) breakLines /\
  encoded_size (len input) breakLines = spec_length (len input) breakLines /\
  exists output,
    base64Encode input breakLines = Some output /\
    len output = spec_length (len input) breakLines /\
    len (filter (Z.eqb newline) output) =
      (if breakLines then ceil_div (ceil_div (len input) 3 * 4) 72 else 0).
Proof.
  intros Hfit. cbv zeta.
  pose proof (encode_init_length input breakLines) as Hsum.
  pose proof (len_nonneg input) as Hpos.
  pose proof (spec_length_bounds (len input) breakLines Hpos) as [Hle _].
  rewrite encoded_size_spec by lia.
  split; [exact Hsum|]. split; [reflexivity|].
  eexists. split; [apply base64Encode_eq, Hfit|].
  split; [rewrite len_app; exact Hsum|].
  unfold base64_encode_block.
  cbn [base64_init_encodestate enc_step enc_result enc_stepcount].
  rewrite (encode_loop_newlines breakLines input step_A 0 0 ltac:(lia) ltac:(lia)).
  destruct breakLines; [|reflexivity].
  unfold ceil_div. cbn [consumed_of].
  Z.div_mod_to_equations. lia.
Qed.

(** C9.  The standard test vectors, and the empty input with either
    line-break setting. *)
Theorem base64Encode_known_vectors :
  base64Encode [0x4D; 0x61; 0x6E] false = Some (text "TWFu") /\
  base64Encode [0x4D; 0x61] false = Some (text "TWE=") /\
  base64Encode [0x4D] false = Some (text "TQ==") /\
  base64Encode [] false = Some (text "") /\
  base64Encode [] true = Some (text "").
Proof. repeat split; reflexivity. Qed.

Lemma encode_chunks_concat chunks lb : forall s,
  encode_chunks chunks s lb = base64_encode_block (concat chunks) s lb.
Proof.
  induction chunks as [|chunk chunks IH]; intros s.
  - destruct s; reflexivity.
  - cbn [encode_chunks concat]. rewrite encode_block_app. cbv zeta.
    destruct (base64_encode_block chunk s lb) as [code s1]. cbn [fst snd].
    rewrite IH.
    destruct (base64_encode_block (concat chunks) s1 lb); reflexivity.
Qed.




(** *** Line breaks *)

Lemma encode_loop_symbols b : forall st r sc,
  0 <= r <= 63 ->
  Forall (fun c => is_symbol c = true) (fst (encode_loop false b st r sc)).
Proof.
  induction b as [|x b IH]; intros st r sc Hr; [constructor|].
  destruct st.
  - rewrite encode_loop_A, fst_emit. constructor.
    + apply encode_value_symbol, sextet1_range.
    + apply IH, carry1_range.
  - rewrite encode_loop_B, fst_emit. constructor.
    + apply encode_value_symbol, sextet2_range, Hr.
    + apply IH, carry2_range.
  - rewrite encode_loop_C, !fst_emit. cbn [andb]. constructor; [|constructor].
    + apply encode_value_symbol, sextet3_range, Hr.
    + apply encode_value_symbol, sextet4_range.
    + apply IH, sextet4_range.
Qed.

(** Inside a line the two line-break settings write the same. *)
Lemma encode_loop_no_break b : forall st r sc,
  0 <= sc -> 3 * sc + consumed_of st + len b < 54 ->
  encode_loop true b st r sc = encode_loop false b st r sc.
Proof.
  induction b as [|x b IH]; intros st r sc Hsc Hlen; [reflexivity|].
  rewrite len_cons in Hlen. pose proof (len_nonneg b).
  destruct st; cbn [consumed_of] in Hlen.
  - rewrite !encode_loop_A, IH by (cbn [consumed_of]; lia). reflexivity.
  - rewrite !encode_loop_B, IH by (cbn [consumed_of]; lia). reflexivity.
  - rewrite !encode_loop_C. cbn [andb].
    destruct (Z.eqb_spec (sc + 1) 18); [lia|].
    rewrite IH by (cbn [consumed_of]; lia). reflexivity.
Qed.

(** The byte that completes the 18th group of a line is followed by a
    newline, and the count of groups starts again. *)
Lemma encode_loop_full_line b : forall st r sc,
  0 <= sc < 18 -> 3 * sc + consumed_of st + len b = 54 ->
  encode_loop true b st r sc =
  (fst (encode_loop false b st r sc) ++ [newline],
   {| enc_step := step_A;
      enc_result := enc_result (snd (encode_loop false b st r sc));
      enc_stepcount := 0 |}).
Proof.
  induction b as [|x b IH]; intros st r sc Hsc Hlen.
  - rewrite len_nil in Hlen. destruct st; cbn [consumed_of] in Hlen; lia.
  - rewrite len_cons in Hlen. pose proof (len_nonneg b).
    destruct st; cbn [consumed_of] in Hlen.
    + rewrite !encode_loop_A, IH by (cbn [consumed_of]; lia). reflexivity.
    + rewrite !encode_loop_B, IH by (cbn [consumed_of]; lia). reflexivity.
    + rewrite !encode_loop_C. cbn [andb].
      destruct (Z.eqb_spec (sc + 1) 18) as [E|E].
      * destruct b as [|y b]; [reflexivity|].
        rewrite len_cons in Hlen. pose proof (len_nonneg b). lia.
      * rewrite IH by (cbn [consumed_of]; lia). reflexivity.
Qed.

Lemma symbols_no_newline l :
  Forall (fun c => is_symbol c = true) l -> ~ In newline l.
Proof.
  intros H Hin. rewrite Forall_forall in H.
  apply (symbol_not_newline newline (H _ Hin)). reflexivity.
Qed.

Lemma len_firstn_54 (input : list Z) :
  54 <= len input -> len (firstn 54 input) = 54.
Proof. unfold len. intros H. rewrite length_firstn. lia. Qed.

(** C8.  With line breaks, 54 input bytes give 72 Base64 symbols followed
    by one newline, the only one; 55 input bytes give 72 symbols, a newline
    directly behind the 72nd, the four characters of the last group, and a
    newline at the end, with no other newline. *)
Theorem base64Encode_line_wrap_boundary (input : list Z) :
  (len input = 54 ->
   exists line,
     base64Encode input true = Some (line ++ [newline]) /\
     len line = 72 /\
     Forall (fun c => is_symbol c = true) line /\
     ~ In newline line) /\
  (len input = 55 ->
   exists line rest,
     base64Encode input true = Some (line ++ [newline] ++ rest ++ [newline]) /\
     len line = 72 /\
     Forall (fun c => is_symbol c = true) line /\
     ~ In newline line /\
     len rest = 4 /\
     ~ In newline rest).
Proof.
  split; intros Hlen.
  - exists (fst (encode_loop false input step_A 0 0)).
    assert (Hsym : Forall (fun c => is_symbol c = true)
                     (fst (encode_loop false input step_A 0 0)))
      by (apply encode_loop_symbols; lia).
    assert (Heq : base64Encode input true =
                  Some (fst (encode_loop false input step_A 0 0) ++ [newline])).
    { rewrite base64Encode_eq by (rewrite Hlen; vm_compute; discriminate).
      unfold base64_encode_block.
      cbn [base64_init_encodestate enc_step enc_result enc_stepcount].
      rewrite encode_loop_full_line by (cbn [consumed_of]; lia).
      cbn [fst snd]. unfold base64_encode_blockend.
      cbn [enc_step enc_stepcount andb Z.ltb Z.compare fst].
      rewrite app_nil_r. reflexivity. }
    split; [exact Heq|].
    split; [|split; [exact Hsym | apply symbols_no_newline, Hsym]].
    assert (Hfit : spec_length (len input) true <= INT_MAX)
      by (rewrite Hlen; vm_compute; discriminate).
    pose proof (base64Encode_some_length input true _ Hfit Heq) as Hl.
    rewrite len_app, len_cons, len_nil, Hlen in Hl.
    vm_compute spec_length in Hl. lia.
  - rewrite <- (firstn_skipn 54 input) in *.
    assert (H54 : len (firstn 54 input) = 54).
    { apply len_firstn_54. rewrite <- (firstn_skipn 54 input). lia. }
    rewrite len_app, H54 in Hlen.
    destruct (skipn 54 input) as [|x [|y tl]];
      [rewrite len_nil in Hlen; lia | clear Hlen |
       rewrite !len_cons in Hlen; pose proof (len_nonneg tl); lia].
    set (a := firstn 54 input) in *.
    exists (fst (encode_loop false a step_A 0 0)),
      [base64_encode_value (sextet1 x); base64_encode_value (carry1 x);
       chr "="; chr "="].
    assert (Hsym : Forall (fun c => is_symbol c = true)
                     (fst (encode_loop false a step_A 0 0)))
      by (apply encode_loop_symbols; lia).
    split; [|split; [|split; [exact Hsym|
             split; [apply symbols_no_newline, Hsym|split; [reflexivity|]]]]].
    + rewrite base64Encode_eq
        by (rewrite len_app, H54, len_cons, len_nil; vm_compute; discriminate).
      unfold base64_encode_block.
      cbn [base64_init_encodestate enc_step enc_result enc_stepcount].
      rewrite encode_loop_app. cbv zeta.
      rewrite encode_loop_full_line by (cbn [consumed_of]; lia).
      cbn [fst snd enc_step enc_result enc_stepcount].
      rewrite encode_loop_A. cbn [encode_loop fst snd emit].
      unfold base64_encode_blockend.
      cbn [enc_step enc_result enc_stepcount andb fst].
      rewrite <- !app_assoc. reflexivity.
    + pose proof (encode_loop_length false a step_A 0 0 ltac:(discriminate)) as Hl.
      cbv zeta in Hl. cbn [consumed_of] in Hl. rewrite H54 in Hl.
      pose proof (encode_loop_full_line a step_A 0 0 ltac:(lia)
                    ltac:(cbn [consumed_of]; lia)) as Hfull.
      pose proof (encode_loop_length true a step_A 0 0 ltac:(lia)) as Ht.
      cbv zeta in Ht. cbn [consumed_of] in Ht. rewrite H54, Hfull in Ht.
      cbn [fst snd] in Ht. unfold base64_encode_blockend in Ht.
      cbn [enc_step enc_stepcount andb Z.ltb Z.compare fst] in Ht.
      rewrite app_nil_r, len_app, len_cons, len_nil in Ht.
      change ((54 + 0 + 2) / 3) with 18 in Ht.
      change ((18 + 0 + 17) / 18) with 1 in Ht. lia.
    + intros [H|[H|[H|[H|[]]]]].
      * exact (encode_value_not_newline _ (sextet1_range x) H).
      * exact (encode_value_not_newline _ (carry1_range x) H).
      * discriminate H.
      * discriminate H.
Qed.

Lemma base64Encode_line_wrap_boundary_witness :
  (len (repeat 0 54) = 54 /\
   exists line,
     base64Encode (repeat 0 54) true = Some (line ++ [newline]) /\
     len line = 72 /\
     Forall (fun c => is_symbol c = true) line /\
     ~ In newline line) /\
  (len (repeat 0xFF 55) = 55 /\
   exists line rest,
     base64Encode (repeat 0xFF 55) true =
       Some (line ++ [newline] ++ rest ++ [newline]) /\
     len line = 72 /\
     Forall (fun c => is_symbol c = true) line /\
     ~ In newline line /\
     len rest = 4 /\
     ~ In newline rest).
Proof.
  split; (split; [reflexivity|]).
  - apply (proj1 (base64Encode_line_wrap_boundary (repeat 0 54))). reflexivity.
  - apply (proj2 (base64Encode_line_wrap_boundary (repeat 0xFF 55))). reflexivity.
Defined.

(** Every character written is a symbol, the padding or a newline. *)
Lemma encode_output_chars lb b : forall st r sc,
  0 <= r <= 63 ->
  let run := encode_loop lb b st r sc in
  Forall (fun c => is_written c = true)
    (fst run ++ fst (base64_encode_blockend (snd run) lb)).
Proof.
  assert (Hsym : forall v, 0 <= v <= 63 -> is_written (base64_encode_value v) = true).
  { intros v Hv. unfold is_written. rewrite encode_value_symbol by exact Hv.
    reflexivity. }
  induction b as [|x b IH]; intros st r sc Hr; cbv zeta.
  - cbn [encode_loop fst snd app]. unfold base64_encode_blockend.
    cbn [enc_step enc_result enc_stepcount].
    assert (Hend : forall ok : bool,
              Forall (fun c => is_written c = true)
                (if lb && ok then [newline] else [])).
    { intros ok. destruct (lb && ok);
        [apply Forall_cons; [reflexivity|]|]; apply Forall_nil. }
    destruct st; cbn [fst app].
    + apply Hend.
    + apply Forall_cons; [apply Hsym, Hr|].
      apply Forall_cons; [reflexivity|].
      apply Forall_cons; [reflexivity|]. apply Hend.
    + apply Forall_cons; [apply Hsym, Hr|].
      apply Forall_cons; [reflexivity|]. apply Hend.
  - destruct st.
    + rewrite encode_loop_A, fst_emit, snd_emit. cbn [app].
      apply Forall_cons; [apply Hsym | apply IH]; auto with sextets.
    + rewrite encode_loop_B, fst_emit, snd_emit. cbn [app].
      apply Forall_cons; [apply Hsym | apply IH]; auto with sextets.
    + rewrite encode_loop_C, !fst_emit, !snd_emit. cbn [app].
      apply Forall_cons; [apply Hsym; auto with sextets|].
      apply Forall_cons; [apply Hsym; auto with sextets|].
      destruct (lb && (sc + 1 =? 18)).
      * rewrite fst_emit, snd_emit. cbn [app].
        apply Forall_cons; [reflexivity | apply IH; auto with sextets].
      * apply IH; auto with sextets.
Qed.

(** *** The final flush *)

Lemma current_line_app a : forall line b,
  current_line line (a ++ b) = current_line (current_line line a) b.
Proof.
  induction a as [|c a IH]; intros line b; [reflexivity|].
  cbn [app current_line]. destruct (c =? newline); apply IH.
Qed.

Lemma current_line_cons line c code :
  c <> newline -> current_line line (c :: code) = current_line (line ++ [c]) code.
Proof.
  intros Hc. cbn [current_line].
  destruct (Z.eqb_spec c newline); [contradiction|reflexivity].
Qed.

Lemma len_snoc (l : list Z) c : len (l ++ [c]) = len l + 1.
Proof. rewrite len_app, len_cons, len_nil. lia. Qed.

(** The carried bits stay a 6-bit value, and the step counts the input
    bytes modulo 3. *)
Lemma encode_loop_state lb b : forall st r sc,
  0 <= r <= 63 ->
  let s := snd (encode_loop lb b st r sc) in
  0 <= enc_result s <= 63 /\
  consumed_of (enc_step s) = (consumed_of st + len b) mod 3.
Proof.
  induction b as [|x b IH]; intros st r sc Hr; cbv zeta.
  - cbn [encode_loop snd enc_result enc_step]. rewrite len_nil.
    split; [exact Hr|]. destruct st; reflexivity.
  - rewrite len_cons. destruct st; cbn [consumed_of].
    + rewrite encode_loop_A, snd_emit.
      destruct (IH step_B (carry1 x) sc (carry1_range x)) as [H1 H2].
      split; [exact H1|]. rewrite H2. cbn [consumed_of]. f_equal.
    + rewrite encode_loop_B, snd_emit.
      destruct (IH step_C (carry2 x) sc (carry2_range x)) as [H1 H2].
      split; [exact H1|]. rewrite H2. cbn [consumed_of]. f_equal. lia.
    + rewrite encode_loop_C, !snd_emit.
      destruct (lb && (sc + 1 =? 18)); rewrite ?snd_emit.
      * destruct (IH step_A (sextet4 x) 0 (sextet4_range x)) as [H1 H2].
        split; [exact H1|]. rewrite H2. cbn [consumed_of].
        replace (2 + (1 + len b)) with (0 + len b + 1 * 3) by lia.
        symmetry. apply Z_mod_plus_full.
      * destruct (IH step_A (sextet4 x) (sc + 1) (sextet4_range x)) as [H1 H2].
        split; [exact H1|]. rewrite H2. cbn [consumed_of].
        replace (2 + (1 + len b)) with (0 + len b + 1 * 3) by lia.
        symmetry. apply Z_mod_plus_full.
Qed.

(** With line breaks, [stepcount] counts the groups on the current line. *)
Lemma encode_loop_line b : forall st r sc line,
  0 <= r <= 63 ->
  0 <= sc < 18 ->
  len line = 4 * sc + consumed_of st ->
  let run := encode_loop true b st r sc in
  0 <= enc_stepcount (snd run) < 18 /\
  len (current_line line (fst run)) =
    4 * enc_stepcount (snd run) + consumed_of (enc_step (snd run)).
Proof.
  induction b as [|x b IH]; intros st r sc line Hr Hsc Hline; cbv zeta.
  - cbn [encode_loop fst snd enc_stepcount enc_step current_line]. auto.
  - destruct st; cbn [consumed_of] in Hline.
    + rewrite encode_loop_A, fst_emit, snd_emit.
      rewrite current_line_cons by (apply encode_value_not_newline; auto with sextets).
      apply IH; [auto with sextets|exact Hsc|].
      rewrite len_snoc. cbn [consumed_of]. lia.
    + rewrite encode_loop_B, fst_emit, snd_emit.
      rewrite current_line_cons by (apply encode_value_not_newline; auto with sextets).
      apply IH; [auto with sextets|exact Hsc|].
      rewrite len_snoc. cbn [consumed_of]. lia.
    + rewrite encode_loop_C, !fst_emit, !snd_emit.
      rewrite !current_line_cons by (apply encode_value_not_newline; auto with sextets).
      cbn [andb]. destruct (Z.eqb_spec (sc + 1) 18) as [E|E].
      * rewrite fst_emit, snd_emit. cbn [current_line Z.eqb newline].
        apply IH; [auto with sextets|lia|reflexivity].
      * apply IH; [auto with sextets|lia|].
        rewrite !len_snoc. cbn [consumed_of]. lia.
Qed.

(** A first call that writes more than [INT_MAX] characters returns a
    count that has wrapped: from 1 610 612 736 input bytes on, [cnt] is
    negative, [total] is not the size of the string, and the assertion
    fails. *)
Lemma base64Encode_wraps input lb :
  1610612736 <= len input <= INT_MAX -> base64Encode input lb = None.
Proof.
  intros Hlen. rewrite base64Encode_cases by lia.
  pose proof (encode_loop_length lb input step_A 0 0 ltac:(lia)) as H.
  cbv zeta in H. cbn [consumed_of] in H.
  change (encode_loop lb input step_A 0 0)
    with (base64_encode_block input base64_init_encodestate lb) in H.
  pose proof (blockend_length
                (snd (base64_encode_block input base64_init_encodestate lb)) lb)
    as Hend.
  pose proof (encode_loop_state lb input step_A 0 0 ltac:(lia)) as [_ Hst].
  change (encode_loop lb input step_A 0 0)
    with (base64_encode_block input base64_init_encodestate lb) in Hst.
  cbn [consumed_of] in Hst.
  assert (Hflush :
    len (fst (base64_encode_blockend
                (snd (base64_encode_block input base64_init_encodestate lb)) lb)) <=
    (if lb then 1 else 0) +
    match enc_step (snd (base64_encode_block input base64_init_encodestate lb)) with
    | step_A => 0 | step_B => 3 | step_C => 2
    end).
  { unfold base64_encode_blockend.
    destruct (enc_step (snd (base64_encode_block input base64_init_encodestate lb)));
      destruct lb; cbn [andb fst app];
      try destruct (0 <? _);
      rewrite ?len_app, ?len_cons, ?len_nil; lia. }
  destruct (Z.leb_spec
              (len (fst (base64_encode_block input base64_init_encodestate lb)))
              INT_MAX) as [Hfit|_]; [exfalso|reflexivity].
  unfold INT_MAX in *.
  destruct (enc_step (snd (base64_encode_block input base64_init_encodestate lb)));
    cbn [consumed_of] in Hst; destruct lb;
    revert H Hst Hflush Hfit Hlen; Z.div_mod_to_equations; lia.
Qed.

(** C2, where it fails.  The count [base64_encode_block] returns is an
    [int]: from 1 610 612 736 input bytes on (a size that still fits
    [int length_in]) the call writes 2^31 characters or more, the count
    wraps, and the assertion of [base64Encode] fires, with either
    line-break setting. *)
Theorem base64Encode_assertion_fires (input : list Z) (breakLines : bool) :
  1610612736 <= len input <= INT_MAX ->
  encoded_size (len input) breakLines = spec_length (len input) breakLines /\
  INT_MAX <
    len (fst (base64_encode_block input base64_init_encodestate breakLines)) /\
  base64Encode input breakLines = None.
Proof.
  intros Hlen. split; [apply encoded_size_spec; lia|].
  split; [|apply base64Encode_wraps, Hlen].
  pose proof (base64Encode_wraps input breakLines Hlen) as Hnone.
  rewrite base64Encode_cases in Hnone by lia.
  destruct (Z.leb_spec
              (len (fst (base64_encode_block input base64_init_encodestate
                           breakLines))) INT_MAX); [discriminate|assumption].
Qed.

Lemma len_repeat (x : Z) n : 0 <= n -> len (repeat x (Z.to_nat n)) = n.
Proof. intros H. unfold len. rewrite repeat_length. apply Z2Nat.id, H. Qed.

Lemma base64Encode_assertion_fires_witness :
  base64Encode (repeat 0 (Z.to_nat 1610612736)) false = None.
Proof.
  assert (H : 1610612736 <= len (repeat 0 (Z.to_nat 1610612736)) <= INT_MAX)
    by (rewrite len_repeat by lia; unfold INT_MAX; lia).
  exact (proj2 (proj2 (base64Encode_assertion_fires
                         (repeat 0 (Z.to_nat 1610612736)) false H))).
Defined.

Lemma list_ind3 {A : Type} (P : list A -> Prop) :
  P [] -> (forall x, P [x]) -> (forall x y, P [x; y]) ->
  (forall x y z l, P l -> P (x :: y :: z :: l)) ->
  forall l, P l.
Proof.
  intros H0 H1 H2 H3 l.
  enough (H : P l /\ (forall x, P (x :: l)) /\ (forall x y, P (x :: y :: l)))
    by apply H.
  induction l as [|a l (IH0 & IH1 & IH2)]; auto.
Qed.

(** *** The flush *)

Lemma encode_value_is_symbol v :
  0 <= v <= 63 -> base64_encode_value v = symbol v.
Proof.
  intros Hv. unfold base64_encode_value, symbol.
  destruct (Z.ltb_spec 63 v); [lia|reflexivity].
Qed.

(** The bits of the bytes of a group, in arithmetic. *)
Lemma sextet1_bits x : is_byte x -> sextet1 x = x / 4.
Proof. intros Hx. by_bytes (fun x => sextet1 x =? x / 4). Qed.

Lemma carry1_bits x : is_byte x -> carry1 x = x mod 4 * 16.
Proof. intros Hx. by_bytes (fun x => carry1 x =? x mod 4 * 16). Qed.

Lemma sextet2_bits x y :
  is_byte x -> is_byte y -> sextet2 (carry1 x) y = x mod 4 * 16 + y / 16.
Proof.
  intros Hx Hy.
  by_byte_pairs (fun x y => sextet2 (carry1 x) y =? x mod 4 * 16 + y / 16).
Qed.

Lemma carry2_bits y : is_byte y -> carry2 y = y mod 16 * 4.
Proof. intros Hy. by_bytes (fun y => carry2 y =? y mod 16 * 4). Qed.

(** What is pending when the input ends inside a group: the symbols of the
    group written so far are the last characters written, and [result]
    holds the bits of the last byte that no symbol holds yet. *)
Lemma encode_loop_pending lb input :
  Forall is_byte input ->
  forall r sc,
  let run := encode_loop lb input step_A r sc in
  match enc_step (snd run) with
  | step_A => True
  | step_B =>
      exists front x written,
        input = front ++ [x] /\
        fst run = written ++ [symbol (x / 4)] /\
        enc_result (snd run) = x mod 4 * 16
  | step_C =>
      exists front x y written,
        input = front ++ [x; y] /\
        fst run = written ++ [symbol (x / 4); symbol (x mod 4 * 16 + y / 16)] /\
        enc_result (snd run) = y mod 16 * 4
  end.
Proof.
  induction input as [|x|x y|x y z input IH] using list_ind3;
    intros Hbytes r sc; cbv zeta.
  - exact I.
  - apply Forall_inv in Hbytes.
    rewrite encode_loop_A. cbn [encode_loop emit fst snd enc_step enc_result].
    exists [], x, []. repeat split.
    + rewrite encode_value_is_symbol, sextet1_bits by auto with sextets.
      reflexivity.
    + apply carry1_bits, Hbytes.
  - pose proof (Forall_inv Hbytes) as Hx.
    pose proof (Forall_inv (Forall_inv_tail Hbytes)) as Hy.
    rewrite encode_loop_A, encode_loop_B.
    cbn [encode_loop emit fst snd enc_step enc_result].
    exists [], x, y, []. repeat split.
    + rewrite !encode_value_is_symbol by auto with sextets.
      rewrite sextet1_bits, sextet2_bits by assumption. reflexivity.
    + apply carry2_bits, Hy.
  - assert (Hrest : Forall is_byte input)
      by (apply Forall_inv_tail, Forall_inv_tail, Forall_inv_tail in Hbytes;
          exact Hbytes).
    rewrite encode_loop_A, encode_loop_B, encode_loop_C.
    rewrite !snd_emit, !fst_emit.
    destruct (lb && (sc + 1 =? 18)).
    + rewrite snd_emit, fst_emit.
      specialize (IH Hrest (sextet4 z) 0). cbv zeta in IH.
      destruct (enc_step (snd (encode_loop lb input step_A (sextet4 z) 0)));
        [exact I| |].
      * destruct IH as (front & a & written & -> & -> & Hr).
        exists (x :: y :: z :: front), a,
          (base64_encode_value (sextet1 x) ::
           base64_encode_value (sextet2 (carry1 x) y) ::
           base64_encode_value (sextet3 (carry2 y) z) ::
           base64_encode_value (sextet4 z) :: newline :: written).
        repeat split. exact Hr.
      * destruct IH as (front & a & b & written & -> & -> & Hr).
        exists (x :: y :: z :: front), a, b,
          (base64_encode_value (sextet1 x) ::
           base64_encode_value (sextet2 (carry1 x) y) ::
           base64_encode_value (sextet3 (carry2 y) z) ::
           base64_encode_value (sextet4 z) :: newline :: written).
        repeat split. exact Hr.
    + specialize (IH Hrest (sextet4 z) (sc + 1)). cbv zeta in IH.
      destruct (enc_step (snd (encode_loop lb input step_A (sextet4 z) (sc + 1))));
        [exact I| |].
      * destruct IH as (front & a & written & -> & -> & Hr).
        exists (x :: y :: z :: front), a,
          (base64_encode_value (sextet1 x) ::
           base64_encode_value (sextet2 (carry1 x) y) ::
           base64_encode_value (sextet3 (carry2 y) z) ::
           base64_encode_value (sextet4 z) :: written).
        repeat split. exact Hr.
      * destruct IH as (front & a & b & written & -> & -> & Hr).
        exists (x :: y :: z :: front), a, b,
          (base64_encode_value (sextet1 x) ::
           base64_encode_value (sextet2 (carry1 x) y) ::
           base64_encode_value (sextet3 (carry2 y) z) ::
           base64_encode_value (sextet4 z) :: written).
        repeat split. exact Hr.
Qed.

(** C6, as the code has it.  After any input, fed in any number of
    slices, [base64_encode_blockend] writes the flush of the pending group
    and then, when line breaks are on and the current line (the flush
    included) holds at least one character, a newline.  The flush is
    nothing when no group is pending ([step_A]).  When one byte [x] is
    pending ([step_B]) it is one symbol, of the two low bits of [x], and
    [==]; the symbol of the six high bits of [x] is the last character
    [base64_encode_block] wrote.  When two bytes [x] and [y] are pending
    ([step_C]) it is one symbol, of the four low bits of [y], and [=]; the
    two earlier symbols of that group are the last characters
    [base64_encode_block] wrote. *)
Theorem base64_encode_blockend_flush (chunks : list (list Z))
    (breakLines : bool) :
  Forall is_byte (concat chunks) ->
  let run := encode_chunks chunks base64_init_encodestate breakLines in
  let s := snd run in
  consumed_of (enc_step s) = len (concat chunks) mod 3 /\
  exists flush,
    fst (base64_encode_blockend s breakLines) =
      flush ++
      (if breakLines && (0 <? len (current_line [] (fst run ++ flush)))
       then [newline] else []) /\
    match enc_step s with
    | step_A => flush = []
    | step_B =>
        exists front x written d,
          concat chunks = front ++ [x] /\
          fst run = written ++ [symbol (x / 4)] /\
          d = symbol (x mod 4 * 16) /\
          is_symbol d = true /\
          flush = [d; chr "="; chr "="]
    | step_C =>
        exists front x y written d,
          concat chunks = front ++ [x; y] /\
          fst run =
            written ++ [symbol (x / 4); symbol (x mod 4 * 16 + y / 16)] /\
          d = symbol (y mod 16 * 4) /\
          is_symbol d = true /\
          flush = [d; chr "="]
    end.
Proof.
  intros Hbytes. cbv zeta. rewrite encode_chunks_concat.
  set (input := concat chunks) in *. unfold base64_encode_block.
  cbn [base64_init_encodestate enc_step enc_result enc_stepcount].
  destruct (encode_loop_state breakLines input step_A 0 0 ltac:(lia)) as [Hr Hst].
  cbn [consumed_of] in Hst. split; [exact Hst|].
  pose proof (encode_loop_pending breakLines input Hbytes 0 0) as Hpending.
  cbv zeta in Hpending.
  assert (Hline : breakLines = true ->
            0 <= enc_stepcount (snd (encode_loop breakLines input step_A 0 0)) < 18 /\
            len (current_line [] (fst (encode_loop breakLines input step_A 0 0))) =
              4 * enc_stepcount (snd (encode_loop breakLines input step_A 0 0)) +
              consumed_of (enc_step (snd (encode_loop breakLines input step_A 0 0)))).
  { intros ->. apply encode_loop_line; [lia|lia|reflexivity]. }
  destruct (encode_loop breakLines input step_A 0 0) as [code [st r sc]].
  cbn [fst snd enc_step enc_result enc_stepcount] in *.
  unfold base64_encode_blockend. cbn [enc_step enc_result enc_stepcount].
  destruct st; cbn [fst].
  - exists []. split; [|reflexivity].
    rewrite app_nil_r. cbn [app]. destruct breakLines; [|reflexivity].
    destruct (Hline eq_refl) as [Hsc Hl]. cbn [consumed_of] in Hl.
    rewrite Hl. cbn [andb].
    destruct (Z.ltb_spec 0 sc), (Z.ltb_spec 0 (4 * sc + 0)); try reflexivity; lia.
  - destruct Hpending as (front & x & written & Hinput & Hcode & Hresult).
    exists [base64_encode_value r; chr "="; chr "="]. split.
    + rewrite current_line_app.
      rewrite !current_line_cons by
        (first [apply encode_value_not_newline; exact Hr | discriminate]).
      cbn [current_line]. destruct breakLines; [|reflexivity].
      destruct (Hline eq_refl) as [Hsc Hl]. rewrite !len_snoc, Hl. cbn [andb].
      destruct (Z.ltb_spec 0 (sc + 1)),
        (Z.ltb_spec 0 (4 * sc + consumed_of step_B + 1 + 1 + 1));
        try reflexivity; cbn [consumed_of] in *; lia.
    + exists front, x, written, (base64_encode_value r).
      split; [exact Hinput|]. split; [exact Hcode|].
      split; [rewrite encode_value_is_symbol by exact Hr; rewrite Hresult;
              reflexivity|].
      split; [apply encode_value_symbol; exact Hr|reflexivity].
  - destruct Hpending as (front & x & y & written & Hinput & Hcode & Hresult).
    exists [base64_encode_value r; chr "="]. split.
    + rewrite current_line_app.
      rewrite !current_line_cons by
        (first [apply encode_value_not_newline; exact Hr | discriminate]).
      cbn [current_line]. destruct breakLines; [|reflexivity].
      destruct (Hline eq_refl) as [Hsc Hl]. rewrite !len_snoc, Hl. cbn [andb].
      destruct (Z.ltb_spec 0 (sc + 1)),
        (Z.ltb_spec 0 (4 * sc + consumed_of step_C + 1 + 1));
        try reflexivity; cbn [consumed_of] in *; lia.
    + exists front, x, y, written, (base64_encode_value r).
      split; [exact Hinput|]. split; [exact Hcode|].
      split; [rewrite encode_value_is_symbol by exact Hr; rewrite Hresult;
              reflexivity|].
      split; [apply encode_value_symbol; exact Hr|reflexivity].
Qed.

Lemma base64_encode_blockend_flush_witness :
  let run := encode_chunks [[0x4D]; [0x61]] base64_init_encodestate true in
  let s := snd run in
  consumed_of (enc_step s) = len (concat [[0x4D]; [0x61]]) mod 3 /\
  exists flush,
    fst (base64_encode_blockend s true) =
      flush ++
      (if true && (0 <? len (current_line [] (fst run ++ flush)))
       then [newline] else []) /\
    match enc_step s with
    | step_A => flush = []
    | step_B =>
        exists front x written d,
          concat [[0x4D]; [0x61]] = front ++ [x] /\
          fst run = written ++ [symbol (x / 4)] /\
          d = symbol (x mod 4 * 16) /\
          is_symbol d = true /\
          flush = [d; chr "="; chr "="]
    | step_C =>
        exists front x y written d,
          concat [[0x4D]; [0x61]] = front ++ [x; y] /\
          fst run =
            written ++ [symbol (x / 4); symbol (x mod 4 * 16 + y / 16)] /\
          d = symbol (y mod 16 * 4) /\
          is_symbol d = true /\
          flush = [d; chr "="]
    end.
Proof.
  apply (base64_encode_blockend_flush [[0x4D]; [0x61]] true).
  repeat (apply Forall_cons; [unfold is_byte; lia|]). apply Forall_nil.
Defined.

(** C6 as stated fails for the [step_C] flush: after the two bytes [Ma]
    the state is [step_C] and [base64_encode_blockend] writes [E=], one
    symbol and the padding, not two symbols and the padding. *)
Lemma base64_encode_blockend_step_C_one_symbol :
  let s := snd (base64_encode_block [0x4D; 0x61] base64_init_encodestate false) in
  enc_step s = step_C /\
  fst (base64_encode_blockend s false) = text "E=" /\
  ~ (exists d1 d2,
       fst (base64_encode_blockend s false) = [d1; d2; chr "="]).
Proof.
  cbv zeta. split; [reflexivity|]. split; [reflexivity|].
  intros (d1 & d2 & H). discriminate H.
Qed.

(** ** The decoder *)

Lemma cell_store_same p c out : cell (store p c out) p = to_char c.
Proof. cbn [store cell]. rewrite Nat.eqb_refl. reflexivity. Qed.

Lemma cell_store_other p c out i : i <> p -> cell (store p c out) i = cell out i.
Proof.
  intros H. cbn [store cell].
  destruct (Nat.eqb_spec i p); [contradiction|reflexivity].
Qed.

Lemma cell_store_or_same p c out :
  cell (store_or p c out) p = to_char (Z.lor (to_char (cell out p)) c).
Proof. unfold store_or. cbn [load]. apply cell_store_same. Qed.

Lemma cell_store_or_other p c out i :
  i <> p -> cell (store_or p c out) i = cell out i.
Proof.
  intros H. unfold store_or. cbn [load].
  rewrite cell_store_other by exact H. reflexivity.
Qed.

Lemma cell_note ok out : cell (note ok out) = cell out.
Proof. reflexivity. Qed.

(** Reads a cell behind a sequence of stores. *)
Ltac cells :=
  repeat first
    [ rewrite cell_note
    | rewrite cell_store_same
    | rewrite cell_store_or_same
    | rewrite cell_store_other by lia
    | rewrite cell_store_or_other by lia ].

Lemma bytes_of_cells n out1 out2 :
  (forall i, (i < n)%nat -> cell out1 i = cell out2 i) ->
  bytes_of n out1 = bytes_of n out2.
Proof.
  intros H. unfold bytes_of. apply map_ext_in.
  intros i Hi. apply in_seq in Hi. rewrite H by lia. reflexivity.
Qed.

(** *** Bits: the bytes of a group come back from its symbols *)

Lemma octet1_ok x y :
  is_byte x -> is_byte y ->
  to_byte (octet1 (sextet1 x) (sextet2 (carry1 x) y)) = x.
Proof.
  intros Hx Hy.
  by_byte_pairs
    (fun x y => to_byte (octet1 (sextet1 x) (sextet2 (carry1 x) y)) =? x).
Qed.

Lemma octet1_last x :
  is_byte x -> to_byte (octet1 (sextet1 x) (carry1 x)) = x.
Proof.
  intros Hx.
  by_bytes (fun x => to_byte (octet1 (sextet1 x) (carry1 x)) =? x).
Qed.

Lemma sextet2_low x y :
  is_byte x -> is_byte y ->
  Z.land (sextet2 (carry1 x) y) 0x00f = Z.land (sextet2 0 y) 0x00f.
Proof.
  intros Hx Hy.
  by_byte_pairs
    (fun x y => Z.land (sextet2 (carry1 x) y) 0x00f =? Z.land (sextet2 0 y) 0x00f).
Qed.

Lemma sextet3_high y z :
  is_byte y -> is_byte z ->
  Z.shiftr (Z.land (sextet3 (carry2 y) z) 0x03c) 2 =
  Z.shiftr (Z.land (sextet3 (carry2 y) 0) 0x03c) 2.
Proof.
  intros Hy Hz.
  by_byte_pairs
    (fun y z => Z.shiftr (Z.land (sextet3 (carry2 y) z) 0x03c) 2 =?
                Z.shiftr (Z.land (sextet3 (carry2 y) 0) 0x03c) 2).
Qed.

Lemma octet2_ok x y z :
  is_byte x -> is_byte y -> is_byte z ->
  to_byte (octet2 (sextet2 (carry1 x) y) (sextet3 (carry2 y) z)) = y.
Proof.
  intros Hx Hy Hz. unfold octet2.
  rewrite (sextet2_low x y Hx Hy), (sextet3_high y z Hy Hz).
  by_bytes (fun y => to_byte (octet2 (sextet2 0 y) (sextet3 (carry2 y) 0)) =? y).
Qed.

Lemma octet2_last x y :
  is_byte x -> is_byte y ->
  to_byte (octet2 (sextet2 (carry1 x) y) (carry2 y)) = y.
Proof.
  intros Hx Hy.
  by_byte_pairs (fun x y => to_byte (octet2 (sextet2 (carry1 x) y) (carry2 y)) =? y).
Qed.

Lemma octet3_ok y z :
  is_byte y -> is_byte z ->
  to_byte (octet3 (sextet3 (carry2 y) z) (sextet4 z)) = z.
Proof.
  intros Hy Hz.
  by_byte_pairs (fun y z => to_byte (octet3 (sextet3 (carry2 y) z) (sextet4 z)) =? z).
Qed.

Section DecoderProperties.

Variable behind : Z.


Lemma decode_encode_value v :
  0 <= v <= 63 -> base64_decode_value behind (base64_encode_value v) = (v, true).
Proof.
  intros Hv.
  assert (H : (let '(d, ok) := base64_decode_value behind (base64_encode_value v) in
               (d =? v) && ok) = true).
  { apply (proj1 (below_spec 64
      (fun v => let '(d, ok) := base64_decode_value behind (base64_encode_value v) in
                (d =? v) && ok))); [vm_compute; reflexivity | lia]. }
  destruct (base64_decode_value behind (base64_encode_value v)) as [d ok].
  apply andb_true_iff in H. destruct H as [H1 H2].
  apply Z.eqb_eq in H1. subst. reflexivity.
Qed.

(** One turn of the loop: a character that is skipped, and a character
    that is consumed at each of the four steps. *)
Lemma decode_skip c t st p out :
  consumed behind c = false ->
  decode_loop behind (c :: t) st p out =
  decode_loop behind t st p (note (snd (base64_decode_value behind c)) out).
Proof.
  unfold consumed. intros H. cbn [decode_loop].
  destruct (base64_decode_value behind c) as [v ok]. cbn [fst snd] in *.
  destruct (Z.ltb_spec (to_char v) 0); [reflexivity|].
  apply Z.leb_gt in H. lia.
Qed.

Lemma decode_consume c t st p out :
  consumed behind c = true ->
  decode_loop behind (c :: t) st p out =
  let fragment := to_char (fst (base64_decode_value behind c)) in
  let out := note (snd (base64_decode_value behind c)) out in
  match st with
  | step_a =>
      decode_loop behind t step_b p
        (store p (Z.shiftl (Z.land fragment 0x03f) 2) out)
  | step_b =>
      decode_loop behind t step_c (S p)
        (store (S p) (Z.shiftl (Z.land fragment 0x00f) 4)
           (store_or p (Z.shiftr (Z.land fragment 0x030) 4) out))
  | step_c =>
      decode_loop behind t step_d (S p)
        (store (S p) (Z.shiftl (Z.land fragment 0x003) 6)
           (store_or p (Z.shiftr (Z.land fragment 0x03c) 2) out))
  | step_d =>
      decode_loop behind t step_a (S p) (store_or p (Z.land fragment 0x03f) out)
  end.
Proof.
  unfold consumed. intros H. cbn [decode_loop].
  destruct (base64_decode_value behind c) as [v ok]. cbn [fst snd] in *.
  destruct (Z.ltb_spec (to_char v) 0); [apply Z.leb_le in H; lia|].
  destruct st; reflexivity.
Qed.

Lemma consumed_encode_value v :
  0 <= v <= 63 -> consumed behind (base64_encode_value v) = true.
Proof.
  intros Hv. unfold consumed. rewrite decode_encode_value by exact Hv.
  cbn [fst]. rewrite to_char_id by (unfold is_char; lia).
  apply Z.leb_le. lia.
Qed.

Lemma decode_nil st p out :
  decode_loop behind [] st p out =
  (p, {| dec_step := st; dec_plainchar := to_char (cell out p) |},
   snd (load p out)).
Proof. reflexivity. Qed.

(** The decoder never writes below [plainchar]. *)
Lemma decode_loop_below t : forall st p out i,
  (i < p)%nat ->
  cell (snd (decode_loop behind t st p out)) i = cell out i.
Proof.
  induction t as [|c t IH]; intros st p out i Hi; [reflexivity|].
  destruct (consumed behind c) eqn:Hc.
  - rewrite decode_consume by exact Hc. cbv zeta.
    destruct st; rewrite IH by lia;
      rewrite ?cell_store_other, ?cell_store_or_other by lia; reflexivity.
  - rewrite decode_skip by exact Hc. rewrite IH by exact Hi. reflexivity.
Qed.

Lemma decode_loop_values t : forall st p out1 out2,
  cell out1 = cell out2 ->
  values (decode_loop behind t st p out1) = values (decode_loop behind t st p out2).
Proof.
  induction t as [|c t IH]; intros st p out1 out2 H.
  - rewrite !decode_nil. unfold values. cbn [fst snd load cell]. rewrite H.
    reflexivity.
  - destruct (consumed behind c) eqn:Hc.
    + rewrite !decode_consume by exact Hc. cbv zeta.
      destruct st; apply IH; unfold store_or; cbn [store load note cell];
        rewrite H; reflexivity.
    + rewrite !decode_skip by exact Hc. apply IH. exact H.
Qed.

(** Skipped characters leave no trace in what a run computes. *)
Lemma decode_loop_filter t : forall st p out,
  values (decode_loop behind t st p out) =
  values (decode_loop behind (filter (consumed behind) t) st p out).
Proof.
  induction t as [|c t IH]; intros st p out; [reflexivity|].
  cbn [filter]. destruct (consumed behind c) eqn:Hc.
  - rewrite !decode_consume by exact Hc. cbv zeta. destruct st; apply IH.
  - rewrite decode_skip by exact Hc. rewrite <- IH.
    apply decode_loop_values. reflexivity.
Qed.

(** Every fourth consumed character completes three bytes. *)
Lemma decode_loop_count t : forall st p out,
  Z.of_nat (fst (fst (decode_loop behind t st p out))) =
  Z.of_nat p + 3 * (index_of st + len (filter (consumed behind) t)) / 4
             - 3 * index_of st / 4.
Proof.
  induction t as [|c t IH]; intros st p out.
  - rewrite decode_nil. cbn [fst filter]. rewrite len_nil, Z.add_0_r. lia.
  - cbn [filter]. destruct (consumed behind c) eqn:Hc.
    + rewrite decode_consume by exact Hc. cbv zeta. rewrite len_cons.
      pose proof (len_nonneg (filter (consumed behind) t)) as Hk.
      destruct st; rewrite IH; cbn [index_of];
        Z.div_mod_to_equations; lia.
    + rewrite decode_skip by exact Hc. apply IH.
Qed.

Lemma len_filter_le (f : Z -> bool) l : len (filter f l) <= len l.
Proof. unfold len. pose proof (filter_length_le f l). lia. Qed.

(** The array of the one-shot driver is never too small for the count
    returned, so the driver returns the first [n] bytes of the memory the
    block call left. *)
Lemma base64Decode_bytes heap input :
  let size := Z.to_nat ((len input * 6 + 7) / 8) in
  let r := base64_decode_block behind input (heapArray heap size)
             base64_init_decodestate in
  (fst (fst r) <= size)%nat /\
  decoded_bytes (base64Decode behind heap input) = bytes_of (fst (fst r)) (snd r).
Proof.
  cbv zeta. unfold base64Decode.
  set (size := Z.to_nat ((len input * 6 + 7) / 8)).
  assert (Hn : (fst (fst (base64_decode_block behind input (heapArray heap size)
                            base64_init_decodestate)) <= size)%nat).
  { unfold base64_decode_block.
    cbn [base64_init_decodestate dec_step dec_plainchar].
    pose proof (decode_loop_count input step_a 0 (store 0 0 (heapArray heap size)))
      as Hc.
    cbn [index_of] in Hc.
    pose proof (len_filter_le (consumed behind) input).
    pose proof (len_nonneg (filter (consumed behind) input)).
    pose proof (len_nonneg input).
    apply Nat2Z.inj_le. rewrite Hc. unfold size. rewrite Z2Nat.id.
    - Z.div_mod_to_equations. lia.
    - Z.div_mod_to_equations. lia. }
  destruct (base64_decode_block behind input (heapArray heap size)
              base64_init_decodestate) as [[n st] out].
  cbn [fst snd decoded_bytes] in *. split; [exact Hn|].
  destruct (Nat.ltb_spec n size); [reflexivity|].
  replace size with n by lia. reflexivity.
Qed.

(** The number of bytes returned, by the characters the decoder consumed. *)
Lemma base64Decode_length heap input :
  len (decoded_bytes (base64Decode behind heap input)) =
  3 * len (filter (consumed behind) input) / 4.
Proof.
  destruct (base64Decode_bytes heap input) as [_ ->].
  unfold bytes_of, len. rewrite length_map, length_seq.
  unfold base64_decode_block. rewrite decode_loop_count.
  cbn [base64_init_decodestate dec_step index_of].
  fold (len (filter (consumed behind) input)).
  Z.div_mod_to_equations. lia.
Qed.

(** Decoding is decoding the characters that are consumed. *)
Lemma base64Decode_filter heap input :
  decoded_bytes (base64Decode behind heap input) =
  decoded_bytes (base64Decode behind heap (filter (consumed behind) input)).
Proof.
  destruct (base64Decode_bytes heap input) as [_ ->].
  destruct (base64Decode_bytes heap (filter (consumed behind) input)) as [_ ->].
  unfold base64_decode_block.
  cbn [base64_init_decodestate dec_step dec_plainchar].
  set (size1 := Z.to_nat ((len input * 6 + 7) / 8)).
  set (size2 := Z.to_nat ((len (filter (consumed behind) input) * 6 + 7) / 8)).
  pose proof (decode_loop_filter input step_a 0%nat
                (store 0 0 (heapArray heap size1))) as H1.
  pose proof (decode_loop_values (filter (consumed behind) input) step_a 0%nat
                (store 0 0 (heapArray heap size1))
                (store 0 0 (heapArray heap size2)) eq_refl) as H2.
  rewrite H2 in H1. unfold values in H1.
  injection H1 as Hn _ Hcell.
  rewrite Hn. apply bytes_of_cells. intros i _. rewrite Hcell. reflexivity.
Qed.

(** *** Decoding what the encoder wrote *)

Lemma consumed_pad : consumed behind (chr "=") = false.
Proof. reflexivity. Qed.

Lemma consumed_newline : consumed behind newline = false.
Proof. reflexivity. Qed.

Lemma fragment_encode_value v :
  0 <= v <= 63 ->
  to_char (fst (base64_decode_value behind (base64_encode_value v))) = v.
Proof.
  intros Hv. rewrite decode_encode_value by exact Hv.
  apply to_char_id. unfold is_char. cbn [fst]. lia.
Qed.

(** The decoder meets the symbol of a 6-bit value in [H]'s range. *)
Ltac consume_symbol H :=
  rewrite decode_consume by (apply consumed_encode_value; exact H);
  cbv zeta; rewrite fragment_encode_value by exact H.

(** The four symbols of a complete group. *)
Lemma decode_group v1 v2 v3 v4 t p out :
  0 <= v1 <= 63 -> 0 <= v2 <= 63 -> 0 <= v3 <= 63 -> 0 <= v4 <= 63 ->
  exists out',
    decode_loop behind
      (base64_encode_value v1 :: base64_encode_value v2 ::
       base64_encode_value v3 :: base64_encode_value v4 :: t) step_a p out =
    decode_loop behind t step_a (S (S (S p))) out' /\
    cell out' p = octet1 v1 v2 /\
    cell out' (S p) = octet2 v2 v3 /\
    cell out' (S (S p)) = octet3 v3 v4.
Proof.
  intros H1 H2 H3 H4. eexists. split.
  - consume_symbol H1. consume_symbol H2. consume_symbol H3. consume_symbol H4.
    reflexivity.
  - repeat split; cells; reflexivity.
Qed.

(** Padding and a final newline are skipped. *)
Lemma decode_line_end (lb : bool) st p out ok :
  exists out',
    decode_loop behind (if lb && ok then [newline] else []) st p out =
    decode_loop behind [] st p out' /\
    cell out' = cell out.
Proof.
  destruct (lb && ok).
  - eexists. rewrite decode_skip by apply consumed_newline.
    split; reflexivity.
  - exists out. split; reflexivity.
Qed.

Lemma roundtrip_loop lb b : forall r sc p out,
  Forall is_byte b ->
  let run := encode_loop lb b step_A r sc in
  let res := decode_loop behind
               (fst run ++ fst (base64_encode_blockend (snd run) lb))
               step_a p out in
  fst (fst res) = (p + length b)%nat /\
  map (fun i => to_byte (cell (snd res) i)) (seq p (length b)) = b.
Proof.
  induction b as [|x|x y|x y z b IH] using list_ind3;
    intros r sc p out Hb; cbv zeta.
  - cbn [encode_loop fst snd app]. unfold base64_encode_blockend.
    cbn [enc_step enc_stepcount fst app length seq map].
    destruct (decode_line_end lb step_a p out (0 <? sc)) as (out' & -> & _).
    rewrite decode_nil. cbn [fst]. split; [lia|reflexivity].
  - inversion Hb as [|? ? Hx _]; subst.
    rewrite encode_loop_A. cbn [encode_loop]. rewrite fst_emit, snd_emit.
    cbn [fst snd app]. unfold base64_encode_blockend.
    cbn [enc_step enc_result enc_stepcount fst app].
    pose proof (sextet1_range x) as H1. pose proof (carry1_range x) as H2.
    consume_symbol H1.
    consume_symbol H2.
    rewrite decode_skip by apply consumed_pad.
    rewrite decode_skip by apply consumed_pad.
    match goal with
    | |- context [decode_loop behind (if lb && ?ok then _ else _) ?st ?q ?o] =>
        destruct (decode_line_end lb st q o ok) as (out' & -> & Hcell)
    end.
    rewrite decode_nil. cbn [fst snd load length seq map cell].
    split; [lia|]. rewrite Hcell.
    cells. f_equal. apply octet1_last, Hx.
  - inversion Hb as [|? ? Hx Hb']; subst.
    inversion Hb' as [|? ? Hy _]; subst.
    rewrite encode_loop_A, encode_loop_B. cbn [encode_loop].
    rewrite !fst_emit, !snd_emit.
    cbn [fst snd app]. unfold base64_encode_blockend.
    cbn [enc_step enc_result enc_stepcount fst app].
    pose proof (sextet1_range x) as H1. pose proof (carry1_range x) as Hc1.
    pose proof (sextet2_range (carry1 x) y Hc1) as H2.
    pose proof (carry2_range y) as H3.
    consume_symbol H1.
    consume_symbol H2.
    consume_symbol H3.
    rewrite decode_skip by apply consumed_pad.
    match goal with
    | |- context [decode_loop behind (if lb && ?ok then _ else _) ?st ?q ?o] =>
        destruct (decode_line_end lb st q o ok) as (out' & -> & Hcell)
    end.
    rewrite decode_nil. cbn [fst snd load length seq map cell].
    split; [lia|]. rewrite Hcell. f_equal; [|f_equal].
    + cells. apply octet1_ok; assumption.
    + cells. apply octet2_last; assumption.
  - inversion Hb as [|? ? Hx Hb1]; subst.
    inversion Hb1 as [|? ? Hy Hb2]; subst.
    inversion Hb2 as [|? ? Hz Hb3]; subst.
    rewrite encode_loop_A, encode_loop_B, encode_loop_C.
    rewrite !fst_emit, !snd_emit.
    pose proof (sextet1_range x) as H1. pose proof (carry1_range x) as Hc1.
    pose proof (sextet2_range (carry1 x) y Hc1) as H2.
    pose proof (carry2_range y) as Hc2.
    pose proof (sextet3_range (carry2 y) z Hc2) as H3.
    pose proof (sextet4_range z) as H4.
    cbn [app].
    assert (Hrest : forall r' sc' out',
      cell out' p = octet1 (sextet1 x) (sextet2 (carry1 x) y) ->
      cell out' (S p) = octet2 (sextet2 (carry1 x) y) (sextet3 (carry2 y) z) ->
      cell out' (S (S p)) = octet3 (sextet3 (carry2 y) z) (sextet4 z) ->
      let run := encode_loop lb b step_A r' sc' in
      let res := decode_loop behind
                   (fst run ++ fst (base64_encode_blockend (snd run) lb))
                   step_a (S (S (S p))) out' in
      fst (fst res) = (p + length (x :: y :: z :: b))%nat /\
      map (fun i => to_byte (cell (snd res) i))
          (seq p (length (x :: y :: z :: b))) = x :: y :: z :: b).
    { intros r' sc' out' C1 C2 C3. cbv zeta.
      destruct (IH r' sc' (S (S (S p))) out' Hb3) as [Hn Hmap].
      split; [rewrite Hn; cbn [length]; lia|].
      cbn [length seq map]. rewrite Hmap.
      rewrite !decode_loop_below by lia. rewrite C1, C2, C3.
      rewrite octet1_ok, octet2_ok, octet3_ok by assumption. reflexivity. }
    destruct (decode_group (sextet1 x) (sextet2 (carry1 x) y)
                (sextet3 (carry2 y) z) (sextet4 z)
                (fst (if lb && (sc + 1 =? 18)
                      then emit newline (encode_loop lb b step_A (sextet4 z) 0)
                      else encode_loop lb b step_A (sextet4 z) (sc + 1)) ++
                 fst (base64_encode_blockend
                        (snd (if lb && (sc + 1 =? 18)
                              then emit newline (encode_loop lb b step_A (sextet4 z) 0)
                              else encode_loop lb b step_A (sextet4 z) (sc + 1)))
                        lb))
                p out H1 H2 H3 H4) as (out' & -> & C1 & C2 & C3).
    destruct (lb && (sc + 1 =? 18)).
    + rewrite fst_emit, snd_emit. cbn [app].
      rewrite decode_skip by apply consumed_newline.
      apply Hrest; rewrite cell_note; assumption.
    + apply Hrest; assumption.
Qed.

(** *** Which characters are consumed *)

(** Every [char] but [{] indexes the table inside its bounds or not at all,
    and is consumed exactly when it is one of the 64 symbols. *)
Lemma decode_value_in_table c :
  is_char c -> c <> chr "{" ->
  snd (base64_decode_value behind c) = true /\
  consumed behind c = is_symbol c.
Proof.
  intros Hc Hne.
  assert (H : ((c =? chr "{") ||
               (snd (base64_decode_value behind c) &&
                Bool.eqb (consumed behind c) (is_symbol c))) = true).
  { apply (chars_all (fun c =>
      (c =? chr "{") ||
      (snd (base64_decode_value behind c) &&
       Bool.eqb (consumed behind c) (is_symbol c)))); [|exact Hc].
    vm_compute. reflexivity. }
  apply orb_true_iff in H. destruct H as [H|H].
  - apply Z.eqb_eq in H. contradiction.
  - apply andb_true_iff in H. destruct H as [H1 H2].
    apply Bool.eqb_prop in H2. split; assumption.
Qed.

Lemma filter_consumed_symbols input :
  Forall is_char input -> ~ In (chr "{") input ->
  filter (consumed behind) input = filter is_symbol input.
Proof.
  intros Hc Hb. apply filter_ext_in. intros c Hin.
  rewrite Forall_forall in Hc.
  apply decode_value_in_table; [apply Hc, Hin|].
  intros ->. apply Hb, Hin.
Qed.

(** Without [{] in the input, the characters outside the alphabet are
    skipped, and every four symbols give three bytes. *)
Lemma base64Decode_symbols heap input :
  Forall is_char input -> ~ In (chr "{") input ->
  decoded_bytes (base64Decode behind heap input) =
    decoded_bytes (base64Decode behind heap (filter is_symbol input)) /\
  len (decoded_bytes (base64Decode behind heap input)) =
    3 * len (filter is_symbol input) / 4.
Proof.
  intros Hc Hb. rewrite <- (filter_consumed_symbols input Hc Hb).
  split; [apply base64Decode_filter | apply base64Decode_length].
Qed.

(** *** Which runs stay inside the array and the table *)

Lemma decode_loop_ge t : forall st p out,
  (p <= fst (fst (decode_loop behind t st p out)))%nat.
Proof.
  induction t as [|c t IH]; intros st p out; [rewrite decode_nil; cbn [fst]; lia|].
  destruct (consumed behind c) eqn:Hc.
  - rewrite decode_consume by exact Hc. cbv zeta.
    destruct st;
      match goal with
      | |- (_ <= fst (fst (decode_loop behind t ?st' ?q ?o)))%nat =>
          pose proof (IH st' q o); lia
      end.
  - rewrite decode_skip by exact Hc. apply IH.
Qed.

(** The last access of a run, the load at the end of the input, is the
    farthest: a run stays inside the array exactly when the count it
    returns is below the size of the array. *)
Lemma decode_loop_within t : forall st p out,
  within (snd (decode_loop behind t st p out)) =
  within out &&
  forallb (fun c => snd (base64_decode_value behind c)) t &&
  (fst (fst (decode_loop behind t st p out)) <? limit out)%nat.
Proof.
  induction t as [|c t IH]; intros st p out.
  - rewrite decode_nil. cbn [fst snd load within forallb].
    rewrite andb_true_r. reflexivity.
  - cbn [forallb]. destruct (consumed behind c) eqn:Hc.
    + rewrite decode_consume by exact Hc. cbv zeta.
      destruct st; rewrite IH;
        match goal with
        | |- context [decode_loop behind t ?st' ?q ?o] =>
            pose proof (decode_loop_ge t st' q o) as Hge;
            destruct (fst (fst (decode_loop behind t st' q o)) <? limit o)%nat eqn:E
        end;
        unfold store_or in *; cbn [store load note within limit] in *;
        rewrite E;
        rewrite ?andb_false_r; try reflexivity;
        apply Nat.ltb_lt in E;
        repeat match goal with
               | |- context [(?a <? ?b)%nat] =>
                   destruct (Nat.ltb_spec a b); [|lia]
               end;
        destruct (within out), (snd (base64_decode_value behind c)),
          (forallb (fun c => snd (base64_decode_value behind c)) t); reflexivity.
    + rewrite decode_skip by exact Hc. rewrite IH. cbn [note within limit].
      rewrite <- !andb_assoc. reflexivity.
Qed.

(** The one-shot decoder stays inside its array and the table exactly when
    no character indexes the table behind its end and the input is not a
    multiple of four characters that are all consumed (the empty input is
    such a multiple). *)
Lemma base64Decode_within heap input :
  decoded_within (base64Decode behind heap input) = true <->
  Forall (fun c => snd (base64_decode_value behind c) = true) input /\
  ~ (len (filter (consumed behind) input) = len input /\ len input mod 4 = 0).
Proof.
  unfold base64Decode.
  set (size := Z.to_nat ((len input * 6 + 7) / 8)).
  pose proof (decode_loop_within input step_a 0%nat (store 0 0 (heapArray heap size)))
    as Hw.
  pose proof (decode_loop_count input step_a 0%nat (store 0 0 (heapArray heap size)))
    as Hc.
  unfold base64_decode_block.
  cbn [base64_init_decodestate dec_step dec_plainchar].
  destruct (decode_loop behind input step_a 0 (store 0 0 (heapArray heap size)))
    as [[n st] out].
  cbn [fst snd decoded_within index_of store heapArray within limit andb] in *.
  rewrite Hw, !andb_true_iff, forallb_forall, Forall_forall.
  pose proof (len_filter_le (consumed behind) input) as Hk.
  pose proof (len_nonneg (filter (consumed behind) input)) as Hk0.
  assert (Hsize : Z.of_nat size = (len input * 6 + 7) / 8).
  { unfold size. rewrite Z2Nat.id; [reflexivity|].
    pose proof (len_nonneg input). Z.div_mod_to_equations. lia. }
  rewrite !Nat.ltb_lt. split.
  - intros [[H0 Ht] Hn]. split; [exact Ht|].
    intros [Hall Hmod]. rewrite Hall in Hc.
    revert Hc Hsize Hmod. Z.div_mod_to_equations. lia.
  - intros [Ht Hnot].
    assert (Hlt : Z.of_nat n < Z.of_nat size).
    { rewrite Hc, Hsize.
      destruct (Z.eq_dec (len (filter (consumed behind) input)) (len input)) as [E|E].
      - assert (Hmod : len input mod 4 <> 0) by tauto.
        rewrite E. revert Hmod. Z.div_mod_to_equations. lia.
      - Z.div_mod_to_equations. lia. }
    repeat split; [lia | exact Ht | lia].
Qed.

Lemma written_in_table c :
  is_written c = true -> snd (base64_decode_value behind c) = true.
Proof.
  assert (H : forallb (fun x => snd (base64_decode_value behind x))
                (chr "=" :: newline :: encoding) = true)
    by (vm_compute; reflexivity).
  rewrite forallb_forall in H. intros Hc. apply H.
  unfold is_written in Hc. apply orb_true_iff in Hc.
  destruct Hc as [Hc|Hc]; [apply orb_true_iff in Hc; destruct Hc as [Hc|Hc]|].
  - right. right. unfold is_symbol in Hc. apply existsb_exists in Hc.
    destruct Hc as (x & Hin & Hx). apply Z.eqb_eq in Hx. subst. exact Hin.
  - apply Z.eqb_eq in Hc. left. symmetry. exact Hc.
  - apply Z.eqb_eq in Hc. right. left. symmetry. exact Hc.
Qed.

(** Decoding what the encoder wrote stays inside the array exactly when
    the text ends with padding or with a newline: a text of complete
    groups without line breaks, the empty text included, does not. *)
Lemma roundtrip_within heap b lb t :
  Forall is_byte b ->
  spec_length (len b) lb <= INT_MAX ->
  base64Encode b lb = Some t ->
  decoded_within (base64Decode behind heap t) = true <->
  len b mod 3 <> 0 \/ (lb = true /\ b <> []).
Proof.
  intros Hb Hfit Ht.
  pose proof (base64Encode_some_length b lb t Hfit Ht) as Hlen.
  rewrite base64Encode_eq in Ht by exact Hfit. injection Ht as <-.
  unfold base64Decode, base64_decode_block, base64_encode_block in *.
  cbn [base64_init_decodestate dec_step dec_plainchar
       base64_init_encodestate enc_step enc_result enc_stepcount] in *.
  set (t := fst (encode_loop lb b step_A 0 0) ++
            fst (base64_encode_blockend (snd (encode_loop lb b step_A 0 0)) lb))
    in *.
  set (size := Z.to_nat ((len t * 6 + 7) / 8)).
  pose proof (decode_loop_within t step_a 0%nat (store 0 0 (heapArray heap size)))
    as Hw.
  destruct (roundtrip_loop lb b 0 0 0%nat (store 0 0 (heapArray heap size)) Hb)
    as [Hn _].
  fold t in Hn.
  assert (Htable : forallb (fun c => snd (base64_decode_value behind c)) t = true).
  { apply forallb_forall. intros c Hc.
    pose proof (encode_output_chars lb b step_A 0 0 ltac:(lia)) as Hchars.
    cbv zeta in Hchars. fold t in Hchars. rewrite Forall_forall in Hchars.
    apply written_in_table, Hchars, Hc. }
  destruct (decode_loop behind t step_a 0 (store 0 0 (heapArray heap size)))
    as [[n st] out].
  cbn [fst snd decoded_within store heapArray within limit andb] in *.
  rewrite Hw, Htable, andb_true_r, andb_true_iff, !Nat.ltb_lt. subst n.
  assert (Hsize : Z.of_nat size = (len t * 6 + 7) / 8).
  { unfold size. rewrite Z2Nat.id; [reflexivity|].
    pose proof (len_nonneg t). Z.div_mod_to_equations. lia. }
  assert (Hb0 : b <> [] <-> 0 < len b).
  { destruct b; [rewrite len_nil|rewrite len_cons; pose proof (len_nonneg b)];
      split; intros; try congruence; try lia. }
  rewrite Hb0. fold (len b) in *.
  pose proof (len_nonneg b) as Hb1.
  unfold spec_length, ceil_div in Hlen. cbv zeta in Hlen.
  assert (Hiff : Z.of_nat (length b) < Z.of_nat size <->
                 len b mod 3 <> 0 \/ (lb = true /\ 0 < len b)).
  { rewrite Hsize, Hlen. fold (len b). clear Hfit. destruct lb.
    - split;
        [intros Hlt; right; split; [reflexivity|];
         revert Hlt; Z.div_mod_to_equations; lia
        |intros [Hm|[_ Hpos]]; Z.div_mod_to_equations; lia].
    - split.
      + intros Hlt. left. revert Hlt. Z.div_mod_to_equations. lia.
      + intros [Hm|[Hm _]]; [|discriminate]. revert Hm.
        Z.div_mod_to_equations. lia. }
  rewrite <- Hiff. split; [intros [_ Hlt]; lia | intros Hlt; split; lia].
Qed.

Lemma symbol_consumed c : is_symbol c = true -> consumed behind c = true.
Proof.
  assert (H : forallb (consumed behind) encoding = true)
    by (vm_compute; reflexivity).
  rewrite forallb_forall in H. intros Hc. apply H.
  unfold is_symbol in Hc. apply existsb_exists in Hc.
  destruct Hc as (x & Hin & Hx). apply Z.eqb_eq in Hx. subst. exact Hin.
Qed.

Lemma filter_all {A : Type} (f : A -> bool) l :
  Forall (fun x => f x = true) l -> filter f l = l.
Proof.
  induction 1 as [|x l Hx _ IH]; [reflexivity|].
  cbn [filter]. rewrite Hx, IH. reflexivity.
Qed.

End DecoderProperties.



Lemma decode_value_behind behind :
  base64_decode_value behind (chr "{") = (behind, false).
Proof. reflexivity. Qed.

(** C3, at the byte the bounds check misses.  For [{] (123) the index is
    80, the size of the table: [value_in > decoding_size] lets it through,
    and [decoding[80]], the element behind the last, is read and returned. *)
Theorem base64_decode_value_brace (behind : Z) :
  to_char (chr "{" - 43) = decoding_size /\
  nth_error decoding (Z.to_nat decoding_size) = None /\
  base64_decode_value behind (chr "{") = (behind, false).
Proof. repeat split. Qed.

(** C4, where it fails.  Every input that consists of a multiple of four
    symbols makes the decoder access its array out of bounds: the array has
    three elements for every four symbols, and at the end of the input
    [base64_decode_block] loads the element behind them (the empty input:
    it first stores to the first element of an array without elements).
    Every input that contains [{] makes it read the table behind its last
    element. *)
Theorem base64Decode_out_of_bounds (behind : Z) (heap : nat -> Z)
    (input : list Z) :
  (Forall (fun c => is_symbol c = true) input -> len input mod 4 = 0 ->
   decoded_within (base64Decode behind heap input) = false) /\
  (In (chr "{") input ->
   decoded_within (base64Decode behind heap input) = false).
Proof.
  pose proof (base64Decode_within behind heap input) as Hw.
  destruct (decoded_within (base64Decode behind heap input));
    [|split; reflexivity].
  destruct (proj1 Hw eq_refl) as [Htable Hnot]. split.
  - intros Hsym Hmod. exfalso. apply Hnot. split; [|exact Hmod].
    rewrite filter_all; [reflexivity|].
    apply Forall_impl with (2 := Hsym). apply symbol_consumed.
  - intros Hin. rewrite Forall_forall in Htable.
    specialize (Htable _ Hin). rewrite decode_value_behind in Htable.
    discriminate Htable.
Qed.

Lemma base64Decode_out_of_bounds_witness :
  (Forall (fun c => is_symbol c = true) (text "TWFu") /\
   len (text "TWFu") mod 4 = 0 /\
   decoded_within (base64Decode 0 (fun _ => 0) (text "TWFu")) = false) /\
  (Forall (fun c => is_symbol c = true) (text "") /\
   len (text "") mod 4 = 0 /\
   decoded_within (base64Decode 0 (fun _ => 0) (text "")) = false) /\
  (In (chr "{") (text "{") /\
   decoded_within (base64Decode 0 (fun _ => 0) (text "{")) = false).
Proof.
  assert (H4 : Forall (fun c => is_symbol c = true) (text "TWFu"))
    by (repeat (apply Forall_cons; [reflexivity|]); apply Forall_nil).
  assert (H0 : Forall (fun c => is_symbol c = true) (text ""))
    by apply Forall_nil.
  assert (Hb : In (chr "{") (text "{")) by (left; reflexivity).
  split; [|split].
  - split; [exact H4|]. split; [reflexivity|].
    exact (proj1 (base64Decode_out_of_bounds 0 (fun _ => 0) (text "TWFu"))
             H4 eq_refl).
  - split; [exact H0|]. split; [reflexivity|].
    exact (proj1 (base64Decode_out_of_bounds 0 (fun _ => 0) (text ""))
             H0 eq_refl).
  - split; [exact Hb|].
    exact (proj2 (base64Decode_out_of_bounds 0 (fun _ => 0) (text "{")) Hb).
Defined.

(** C7, where it holds and where it fails.  The two examples of the
    specification decode as stated; but what is stored behind the table
    decides whether [{] is skipped: with a NUL there it is consumed as the
    6-bit value 0, with -1 there it is skipped. *)
Theorem base64Decode_brace_not_skipped (heap : nat -> Z) :
  (forall behind,
     decoded_bytes (base64Decode behind heap (text "T!W@F#u")) =
       decoded_bytes (base64Decode behind heap (text "TWFu")) /\
     decoded_bytes (base64Decode behind heap (text "TWFu")) = [0x4D; 0x61; 0x6E] /\
     decoded_bytes (base64Decode behind heap (map chr
       ["T"; "W"; "F"; "u"; "010"; "b"; "g"; "="; "="]%char)) =
       [0x4D; 0x61; 0x6E; 0x6E]) /\
  is_symbol (chr "{") = false /\
  decoded_bytes (base64Decode 0 heap (text "{AAA")) = [0; 0; 0] /\
  decoded_bytes (base64Decode 0 heap (filter is_symbol (text "{AAA"))) = [0; 0] /\
  decoded_bytes (base64Decode (-1) heap (text "{AAA")) = [0; 0].
Proof. repeat split. Qed.

(** C10, where it fails.  No character of [{{{{] is a symbol, yet with a
    NUL stored behind the table the decoder returns three bytes. *)
Theorem base64Decode_brace_counted (heap : nat -> Z) :
  len (filter is_symbol (text "{{{{")) = 0 /\
  len (decoded_bytes (base64Decode 0 heap (text "{{{{"))) = 3.
Proof. split; reflexivity. Qed.

(** * Further properties of the codec *)

(** X1.  The two tables are inverse to each other: the symbol of a 6-bit
    value decodes to that value, and a symbol decodes to a 6-bit value
    whose symbol it is. *)
Theorem base64_tables_inverse (behind : Z) :
  (forall v, 0 <= v <= 63 ->
     base64_decode_value behind (base64_encode_value v) = (v, true)) /\
  (forall c, is_symbol c = true ->
     0 <= fst (base64_decode_value behind c) <= 63 /\
     base64_encode_value (fst (base64_decode_value behind c)) = c).
Proof.
  split; [apply decode_encode_value|].
  assert (H : forallb (fun c =>
                is_sextet (fst (base64_decode_value behind c)) &&
                (base64_encode_value (fst (base64_decode_value behind c)) =? c))
              encoding = true) by (vm_compute; reflexivity).
  rewrite forallb_forall in H. intros c Hc.
  unfold is_symbol in Hc. apply existsb_exists in Hc.
  destruct Hc as (x & Hin & Hx). apply Z.eqb_eq in Hx. subst x.
  specialize (H c Hin). apply andb_true_iff in H. destruct H as [H1 H2].
  split; [apply is_sextet_range, H1 | apply Z.eqb_eq, H2].
Qed.

Lemma base64_tables_inverse_witness :
  (0 <= 19 <= 63 /\
   base64_decode_value 0 (base64_encode_value 19) = (19, true)) /\
  (is_symbol (chr "T") = true /\
   0 <= fst (base64_decode_value 0 (chr "T")) <= 63 /\
   base64_encode_value (fst (base64_decode_value 0 (chr "T"))) = chr "T").
Proof.
  split.
  - split; [lia|]. apply (proj1 (base64_tables_inverse 0)). lia.
  - split; [reflexivity|].
    apply (proj2 (base64_tables_inverse 0)). reflexivity.
Defined.

Lemma not_in_newlines (l : list Z) :
  len (filter (Z.eqb newline) l) = 0 -> ~ In newline l.
Proof.
  intros H Hin.
  assert (Hf : In newline (filter (Z.eqb newline) l))
    by (apply filter_In; split; [exact Hin | apply Z.eqb_refl]).
  destruct (filter (Z.eqb newline) l); [exact Hf|].
  rewrite len_cons in H. pose proof (len_nonneg l0). lia.
Qed.

(** X2.  What [base64Encode] returns consists of the 64 symbols, [=] and
    newlines, and holds no newline when line breaks are off. *)
Theorem base64Encode_alphabet (input : list Z) (breakLines : bool)
    (output : list Z) :
  base64Encode input breakLines = Some output ->
  Forall (fun c => is_written c = true) output /\
  (breakLines = false -> ~ In newline output).
Proof.
  intros H. apply base64Encode_some in H. destruct H as (plaintext & ->).
  unfold base64_encode_block.
  cbn [base64_init_encodestate enc_step enc_result enc_stepcount].
  split.
  - apply (encode_output_chars breakLines plaintext step_A 0 0). lia.
  - intros ->. apply not_in_newlines.
    apply (encode_loop_newlines false plaintext step_A 0 0); [lia|discriminate].
Qed.

Lemma base64Encode_alphabet_witness :
  base64Encode [0x4D; 0x61] false = Some (text "TWE=") /\
  Forall (fun c => is_written c = true) (text "TWE=") /\
  (false = false -> ~ In newline (text "TWE=")).
Proof.
  split; [reflexivity|].
  exact (base64Encode_alphabet [0x4D; 0x61] false (text "TWE=") eq_refl).
Defined.

(** The lines one state writes until the end. *)
Lemma encode_loop_wrapped b : forall st r sc,
  0 <= r <= 63 -> 0 <= sc < 18 ->
  let run := encode_loop true b st r sc in
  wrapped (4 * sc + consumed_of st)
    (fst run ++ fst (base64_encode_blockend (snd run) true)).
Proof.
  induction b as [|x b IH]; intros st r sc Hr Hsc; cbv zeta.
  - cbn [encode_loop fst snd app]. unfold base64_encode_blockend.
    cbn [enc_step enc_result enc_stepcount andb].
    destruct st; cbn [fst app consumed_of].
    + destruct (Z.ltb_spec 0 sc).
      * apply wrapped_last. lia.
      * replace (4 * sc + 0) with 0 by lia. apply wrapped_nil.
    + destruct (Z.ltb_spec 0 (sc + 1)); [|lia].
      apply wrapped_char;
        [apply encode_value_not_newline, Hr | lia |].
      apply wrapped_char; [discriminate | lia |].
      apply wrapped_char; [discriminate | lia |].
      apply wrapped_last. lia.
    + destruct (Z.ltb_spec 0 (sc + 1)); [|lia].
      apply wrapped_char;
        [apply encode_value_not_newline, Hr | lia |].
      apply wrapped_char; [discriminate | lia |].
      apply wrapped_last. lia.
  - destruct st; cbn [consumed_of].
    + rewrite encode_loop_A, fst_emit, snd_emit. cbn [app].
      apply wrapped_char;
        [apply encode_value_not_newline; auto with sextets | lia |].
      replace (4 * sc + 0 + 1) with (4 * sc + consumed_of step_B)
        by (cbn [consumed_of]; lia).
      apply IH; auto with sextets.
    + rewrite encode_loop_B, fst_emit, snd_emit. cbn [app].
      apply wrapped_char;
        [apply encode_value_not_newline; auto with sextets | lia |].
      replace (4 * sc + 1 + 1) with (4 * sc + consumed_of step_C)
        by (cbn [consumed_of]; lia).
      apply IH; auto with sextets.
    + rewrite encode_loop_C, !fst_emit, !snd_emit. cbn [app andb].
      apply wrapped_char;
        [apply encode_value_not_newline; auto with sextets | lia |].
      apply wrapped_char;
        [apply encode_value_not_newline; auto with sextets | lia |].
      destruct (Z.eqb_spec (sc + 1) 18) as [E|E].
      * rewrite fst_emit, snd_emit. cbn [app].
        replace (4 * sc + 2 + 1 + 1) with 72 by lia.
        apply wrapped_break.
        apply (IH step_A (sextet4 x) 0); [auto with sextets | lia].
      * replace (4 * sc + 2 + 1 + 1) with (4 * (sc + 1) + consumed_of step_A)
          by (cbn [consumed_of]; lia).
        apply IH; [auto with sextets | lia].
Qed.

Lemma wrapped_lines k code :
  wrapped k code ->
  forall line, len line = k -> ~ In newline line ->
  exists lines,
    line ++ code = concat (map (fun l => l ++ [newline]) lines) /\
    Forall (fun l => ~ In newline l /\ 0 < len l <= 72) lines /\
    Forall (fun l => len l = 72) (removelast lines).
Proof.
  induction 1 as [|k Hk|code _ IH|k c code Hc Hk _ IH]; intros line Hlen Hnl.
  - exists [].
    destruct line;
      [|rewrite len_cons in Hlen; pose proof (len_nonneg line); lia].
    repeat split; constructor.
  - exists [line]. cbn [map concat removelast]. rewrite app_nil_r.
    split; [reflexivity|]. split; [|constructor].
    constructor; [|constructor]. split; [exact Hnl|lia].
  - destruct (IH [] eq_refl ltac:(intros [])) as (lines & Heq & Hall & Hfull).
    exists (line :: lines). cbn [map concat app] in *.
    rewrite <- Heq, <- app_assoc. split; [reflexivity|]. split.
    + constructor; [split; [exact Hnl|lia]|exact Hall].
    + destruct lines as [|l lines]; [constructor|].
      change (removelast (line :: l :: lines))
        with (line :: removelast (l :: lines)).
      constructor; assumption.
  - destruct (IH (line ++ [c])) as (lines & Heq & Hall & Hfull).
    + rewrite len_snoc. lia.
    + intros Hin. apply in_app_or in Hin.
      destruct Hin as [Hin|[Hin|[]]]; [exact (Hnl Hin)|congruence].
    + exists lines. rewrite <- app_assoc in Heq. split; [exact Heq|].
      split; assumption.
Qed.

(** X3.  With line breaks on, what [base64Encode] returns is a sequence of
    lines, each closed by a newline, of which every one but the last holds
    exactly 72 characters and the last between 1 and 72. *)
Theorem base64Encode_lines (input : list Z) (output : list Z) :
  base64Encode input true = Some output ->
  exists lines,
    output = concat (map (fun l => l ++ [newline]) lines) /\
    Forall (fun l => ~ In newline l /\ 0 < len l <= 72) lines /\
    Forall (fun l => len l = 72) (removelast lines).
Proof.
  intros H. apply base64Encode_some in H. destruct H as (plaintext & ->).
  apply (wrapped_lines 0 _
           (encode_loop_wrapped plaintext step_A 0 0 ltac:(lia) ltac:(lia)) []);
    [reflexivity | intros []].
Qed.

Lemma base64Encode_lines_witness :
  base64Encode [0x4D] true = Some (text "TQ==" ++ [newline]) /\
  exists lines,
    text "TQ==" ++ [newline] = concat (map (fun l => l ++ [newline]) lines) /\
    Forall (fun l => ~ In newline l /\ 0 < len l <= 72) lines /\
    Forall (fun l => len l = 72) (removelast lines).
Proof.
  split; [reflexivity|].
  exact (base64Encode_lines [0x4D] (text "TQ==" ++ [newline]) eq_refl).
Defined.

(** What a state writes with line breaks is, the newlines left out, what
    it writes without. *)
Lemma encode_loop_unwrapped b : forall st r sc sc',
  0 <= r <= 63 ->
  let wrapped_run := encode_loop true b st r sc in
  let run := encode_loop false b st r sc' in
  filter (fun c => negb (c =? newline))
    (fst wrapped_run ++ fst (base64_encode_blockend (snd wrapped_run) true)) =
  fst run ++ fst (base64_encode_blockend (snd run) false).
Proof.
  assert (Hkeep : forall v l, 0 <= v <= 63 ->
            filter (fun c => negb (c =? newline)) (base64_encode_value v :: l) =
            base64_encode_value v :: filter (fun c => negb (c =? newline)) l).
  { intros v l Hv. cbn [filter].
    destruct (Z.eqb_spec (base64_encode_value v) newline) as [E|E];
      [exact (False_ind _ (encode_value_not_newline v Hv E)) | reflexivity]. }
  induction b as [|x b IH]; intros st r sc sc' Hr; cbv zeta.
  - cbn [encode_loop fst snd app]. unfold base64_encode_blockend.
    cbn [enc_step enc_result enc_stepcount andb].
    destruct st; cbn [fst app].
    + destruct (0 <? sc); reflexivity.
    + rewrite Hkeep by exact Hr. destruct (0 <? sc + 1); reflexivity.
    + rewrite Hkeep by exact Hr. destruct (0 <? sc + 1); reflexivity.
  - destruct st.
    + rewrite !encode_loop_A, !fst_emit, !snd_emit. cbn [app].
      rewrite Hkeep by auto with sextets. f_equal. apply IH. auto with sextets.
    + rewrite !encode_loop_B, !fst_emit, !snd_emit. cbn [app].
      rewrite Hkeep by auto with sextets. f_equal. apply IH. auto with sextets.
    + rewrite !encode_loop_C, !fst_emit, !snd_emit. cbn [app andb].
      rewrite !Hkeep by auto with sextets. do 2 f_equal.
      destruct (sc + 1 =? 18).
      * rewrite fst_emit, snd_emit. cbn [app filter Z.eqb newline Pos.eqb negb].
        apply IH. auto with sextets.
      * apply IH. auto with sextets.
Qed.

(** X4.  Line breaks only add newlines: where the text with line breaks
    has at most [INT_MAX] characters, what [base64Encode] returns with line
    breaks is, once its newlines are removed, what it returns without. *)
Theorem base64Encode_unwrapped (input : list Z) :
  spec_length (len input) true <= INT_MAX ->
  exists wrapped_output output,
    base64Encode input true = Some wrapped_output /\
    base64Encode input false = Some output /\
    filter (fun c => negb (c =? newline)) wrapped_output = output.
Proof.
  intros Hfit.
  assert (Hfit' : spec_length (len input) false <= INT_MAX).
  { revert Hfit. unfold spec_length, ceil_div. pose proof (len_nonneg input).
    Z.div_mod_to_equations. lia. }
  do 2 eexists. split; [apply base64Encode_eq, Hfit|].
  split; [apply base64Encode_eq, Hfit'|].
  apply (encode_loop_unwrapped input step_A 0 0 0). lia.
Qed.

Lemma base64Encode_unwrapped_witness :
  exists wrapped_output output,
    base64Encode (repeat 0xFF 55) true = Some wrapped_output /\
    base64Encode (repeat 0xFF 55) false = Some output /\
    filter (fun c => negb (c =? newline)) wrapped_output = output.
Proof.
  apply (base64Encode_unwrapped (repeat 0xFF 55)).
  vm_compute. discriminate.
Defined.

(** The symbols and the padding one state writes until the end. *)
Lemma encode_loop_padding b : forall st r sc,
  0 <= r <= 63 ->
  let run := encode_loop false b st r sc in
  exists symbols,
    fst run ++ fst (base64_encode_blockend (snd run) false) =
      symbols ++ repeat (chr "=") (padding (consumed_of st + len b)) /\
    Forall (fun c => is_symbol c = true) symbols.
Proof.
  induction b as [|x b IH]; intros st r sc Hr; cbv zeta.
  - cbn [encode_loop fst snd app]. unfold base64_encode_blockend.
    cbn [enc_step enc_result enc_stepcount andb]. rewrite len_nil.
    destruct st; cbn [fst app consumed_of].
    + exists []. split; [reflexivity|constructor].
    + exists [base64_encode_value r]. split; [reflexivity|].
      constructor; [apply encode_value_symbol, Hr|constructor].
    + exists [base64_encode_value r]. split; [reflexivity|].
      constructor; [apply encode_value_symbol, Hr|constructor].
  - rewrite len_cons. destruct st; cbn [consumed_of].
    + rewrite encode_loop_A, fst_emit, snd_emit. cbn [app].
      destruct (IH step_B (carry1 x) sc (carry1_range x)) as (symbols & Heq & Hs).
      cbv zeta in Heq. rewrite Heq. cbn [consumed_of].
      exists (base64_encode_value (sextet1 x) :: symbols). split.
      * reflexivity.
      * constructor; [apply encode_value_symbol; auto with sextets|exact Hs].
    + rewrite encode_loop_B, fst_emit, snd_emit. cbn [app].
      destruct (IH step_C (carry2 x) sc (carry2_range x)) as (symbols & Heq & Hs).
      cbv zeta in Heq. rewrite Heq. cbn [consumed_of].
      exists (base64_encode_value (sextet2 r x) :: symbols). split.
      * replace (1 + (1 + len b)) with (2 + len b) by lia. reflexivity.
      * constructor; [apply encode_value_symbol; auto with sextets|exact Hs].
    + rewrite encode_loop_C, !fst_emit, !snd_emit. cbn [app andb].
      destruct (IH step_A (sextet4 x) (sc + 1) (sextet4_range x))
        as (symbols & Heq & Hs).
      cbv zeta in Heq. rewrite Heq. cbn [consumed_of].
      exists (base64_encode_value (sextet3 r x) ::
              base64_encode_value (sextet4 x) :: symbols). split.
      * cbn [app]. unfold padding.
        replace (2 + (1 + len b)) with (0 + len b + 1 * 3) by lia.
        rewrite Z_mod_plus_full. reflexivity.
      * constructor; [apply encode_value_symbol; auto with sextets|].
        constructor; [apply encode_value_symbol; auto with sextets|exact Hs].
Qed.

(** X5.  Without line breaks, and where the text has at most [INT_MAX]
    characters, what [base64Encode] returns is symbols followed by the
    padding: no [=] for a multiple of three bytes, [==] for one byte more,
    [=] for two bytes more. *)
Theorem base64Encode_padding (input : list Z) :
  spec_length (len input) false <= INT_MAX ->
  exists symbols,
    base64Encode input false =
      Some (symbols ++ repeat (chr "=") (padding (len input))) /\
    Forall (fun c => is_symbol c = true) symbols.
Proof.
  intros Hfit. rewrite base64Encode_eq by exact Hfit.
  destruct (encode_loop_padding input step_A 0 0 ltac:(lia)) as (symbols & Heq & Hs).
  exists symbols. split; [|exact Hs]. f_equal. exact Heq.
Qed.

Lemma base64Encode_padding_witness :
  exists symbols,
    base64Encode [0x4D; 0x61; 0x6E; 0xFF] false =
      Some (symbols ++ repeat (chr "=") (padding (len [0x4D; 0x61; 0x6E; 0xFF]))) /\
    Forall (fun c => is_symbol c = true) symbols.
Proof.
  apply (base64Encode_padding [0x4D; 0x61; 0x6E; 0xFF]).
  vm_compute. discriminate.
Defined.

(** ** The decoder, slice by slice *)

Section DecoderStreaming.

Variable behind : Z.







End DecoderStreaming.

(** X7. A call of [base64_decode_block] on a text of [char]s without [{]
    stays inside its output array exactly when the array has more elements
    than the call returns bytes: the element behind the returned bytes is
    written as well. *)
Theorem base64_decode_block_bounds (behind : Z) (heap : nat -> Z)
    (size : nat) (code_in : list Z) (state_in : base64_decodestate) :
  Forall is_char code_in ->
  ~ In (chr "{") code_in ->
  within (snd (base64_decode_block behind code_in (heapArray heap size) state_in)) =
  (fst (fst (base64_decode_block behind code_in (heapArray heap size) state_in))
   <? size)%nat.
Proof.
  intros Hchars Hbrace. unfold base64_decode_block.
  rewrite decode_loop_within.
  assert (forallb (fun c => snd (base64_decode_value behind c)) code_in = true)
    as ->.
  { apply forallb_forall. intros c Hc.
    rewrite Forall_forall in Hchars.
    apply (decode_value_in_table behind c (Hchars c Hc)).
    intros ->. exact (Hbrace Hc). }
  cbn [store heapArray within limit andb]. rewrite andb_true_r.
  match goal with
  | |- context [decode_loop behind code_in ?st 0%nat ?o] =>
      pose proof (decode_loop_ge behind code_in st 0%nat o) as Hge;
      destruct (Nat.ltb_spec (fst (fst (decode_loop behind code_in st 0%nat o))) size)
        as [Hlt|Hnot]
  end.
  - rewrite andb_true_r. apply Nat.ltb_lt. lia.
  - apply andb_false_r.
Qed.

Lemma base64_decode_block_bounds_witness :
  within (snd (base64_decode_block 0 (text "QUJD") (heapArray (fun _ => 0) 3%nat)
                 base64_init_decodestate)) =
  Nat.ltb
    (fst (fst (base64_decode_block 0 (text "QUJD") (heapArray (fun _ => 0) 3%nat)
                 base64_init_decodestate))) 3%nat.
Proof.
  apply (base64_decode_block_bounds 0 (fun _ => 0) 3%nat (text "QUJD")
           base64_init_decodestate).
  - change (text "QUJD") with [81; 85; 74; 68].
    repeat (apply Forall_cons; [unfold is_char; lia|]). apply Forall_nil.
  - vm_compute. intros H.
    repeat (destruct H as [H|H]; [discriminate H|]). exact H.
Defined.

(** * The text helpers of [util.c++] *)

(** ** [split] and [splitFirst] *)

Lemma not_in_snoc (d c : Z) piece :
  ~ In d piece -> c <> d -> ~ In d (piece ++ [c]).
Proof.
  intros Hp Hc Hin. apply in_app_or in Hin.
  destruct Hin as [Hin|[Hin|[]]]; [exact (Hp Hin)|exact (Hc Hin)].
Qed.

Lemma split_from_join input delim : forall piece,
  join delim (split_from input delim piece) = piece ++ input.
Proof.
  induction input as [|c input IH]; intros piece.
  - cbn [split_from join]. rewrite app_nil_r. reflexivity.
  - cbn [split_from]. destruct (Z.eqb_spec c delim) as [->|Hc].
    + specialize (IH []). cbn [app] in IH.
      destruct (split_from input delim []) as [|p ps] eqn:E.
      * destruct input; cbn [split_from] in E;
          [discriminate|destruct (z =? delim); discriminate].
      * change (join delim (piece :: p :: ps))
          with (piece ++ delim :: join delim (p :: ps)).
        rewrite IH. reflexivity.
    + rewrite IH, <- app_assoc. reflexivity.
Qed.

Lemma split_from_pieces input delim : forall piece,
  ~ In delim piece ->
  Forall (fun p => ~ In delim p) (split_from input delim piece).
Proof.
  induction input as [|c input IH]; intros piece Hp.
  - repeat constructor. exact Hp.
  - cbn [split_from]. destruct (Z.eqb_spec c delim) as [->|Hc].
    + constructor; [exact Hp|]. apply IH. intros [].
    + apply IH. apply not_in_snoc; assumption.
Qed.

Lemma split_from_length input delim : forall piece,
  length (split_from input delim piece) = S (count_occ Z.eq_dec input delim).
Proof.
  induction input as [|c input IH]; intros piece; [reflexivity|].
  cbn [split_from count_occ].
  destruct (Z.eqb_spec c delim) as [->|Hc].
  - destruct (Z.eq_dec delim delim); [|contradiction].
    cbn [length]. rewrite IH. reflexivity.
  - destruct (Z.eq_dec c delim); [contradiction|]. apply IH.
Qed.

Lemma split_pieces (input : list Z) (delim : Z) :
  join delim (split input delim) = input /\
  Forall (fun piece => ~ In delim piece) (split input delim) /\
  length (split input delim) = S (count_occ Z.eq_dec input delim).
Proof.
  unfold split. split; [apply (split_from_join input delim [])|].
  split; [apply split_from_pieces; intros [] | apply split_from_length].
Qed.

(** X8.  [split] cuts at every [delim] and nowhere else: the pieces,
    joined with [delim] between them, are the input; no piece holds
    [delim]; and there is one piece more than the input holds [delim]s (one
    piece, the empty one, for the empty input). *)
Theorem split_join (input : list Z) (delim : Z) :
  join delim (split input delim) = input /\
  Forall (fun piece => ~ In delim piece) (split input delim) /\
  length (split input delim) = S (count_occ Z.eq_dec input delim).
Proof. exact (split_pieces input delim). Qed.

Lemma split_from_app piece input delim : forall front,
  ~ In delim piece ->
  split_from (piece ++ input) delim front =
  split_from input delim (front ++ piece).
Proof.
  induction piece as [|c piece IH]; intros front Hp.
  - rewrite app_nil_r. reflexivity.
  - cbn [app split_from].
    destruct (Z.eqb_spec c delim) as [->|Hc]; [exfalso; apply Hp; left; reflexivity|].
    rewrite IH by (intros Hin; apply Hp; right; exact Hin).
    rewrite <- app_assoc. reflexivity.
Qed.

(** X9.  [split] undoes joining: pieces that hold no [delim], joined with
    [delim] between them, split into these pieces again. *)
Theorem split_of_join (delim : Z) (pieces : list (list Z)) :
  pieces <> [] ->
  Forall (fun piece => ~ In delim piece) pieces ->
  split (join delim pieces) delim = pieces.
Proof.
  intros Hne Hall. unfold split.
  induction pieces as [|piece pieces IH]; [contradiction|].
  inversion Hall as [|? ? Hp Hps]; subst.
  destruct pieces as [|p ps].
  - cbn [join]. rewrite <- (app_nil_r piece) at 1.
    rewrite split_from_app by exact Hp. reflexivity.
  - change (join delim (piece :: p :: ps))
      with (piece ++ delim :: join delim (p :: ps)).
    rewrite split_from_app by exact Hp. cbn [split_from app].
    rewrite Z.eqb_refl. f_equal. apply IH; [discriminate|exact Hps].
Qed.

Lemma split_of_join_witness :
  [text "a"; text ""; text "bc"] <> [] /\
  Forall (fun piece => ~ In (chr ",") piece) [text "a"; text ""; text "bc"] /\
  split (join (chr ",") [text "a"; text ""; text "bc"]) (chr ",") =
    [text "a"; text ""; text "bc"].
Proof.
  assert (Hne : [text "a"; text ""; text "bc"] <> []) by discriminate.
  assert (Hall : Forall (fun piece => ~ In (chr ",") piece)
                   [text "a"; text ""; text "bc"]).
  { repeat constructor; cbn; intros H; repeat destruct H as [H|H];
      try discriminate H; exact H. }
  split; [exact Hne|]. split; [exact Hall|].
  exact (split_of_join (chr ",") [text "a"; text ""; text "bc"] Hne Hall).
Defined.

Lemma splitFirst_from_spec input delim : forall piece,
  ~ In delim piece ->
  match splitFirst_from input delim piece with
  | Some (result, rest) =>
      piece ++ input = result ++ delim :: rest /\ ~ In delim result
  | None => ~ In delim input
  end.
Proof.
  induction input as [|c input IH]; intros piece Hp.
  - intros [].
  - cbn [splitFirst_from]. destruct (Z.eqb_spec c delim) as [->|Hc].
    + split; [reflexivity|exact Hp].
    + specialize (IH (piece ++ [c]) (not_in_snoc _ _ _ Hp Hc)).
      destruct (splitFirst_from input delim (piece ++ [c])) as [[result rest]|].
      * rewrite <- app_assoc in IH. exact IH.
      * intros [Hin|Hin]; [exact (Hc Hin)|exact (IH Hin)].
Qed.

Lemma splitFirst_cases (input : list Z) (delim : Z) :
  match splitFirst input delim with
  | Some (result, rest) => input = result ++ delim :: rest /\ ~ In delim result
  | None => ~ In delim input
  end.
Proof. apply (splitFirst_from_spec input delim []). intros []. Qed.

(** X10.  [splitFirst] cuts at the first [delim]: it returns what stands
    in front of it, which holds no [delim], and leaves in [input] what
    stands behind it; it returns nothing exactly when the input holds no
    [delim]. *)
Theorem splitFirst_spec (input : list Z) (delim : Z) :
  match splitFirst input delim with
  | Some (result, rest) => input = result ++ delim :: rest /\ ~ In delim result
  | None => ~ In delim input
  end.
Proof. exact (splitFirst_cases input delim). Qed.

Lemma split_from_first input delim : forall piece,
  split_from input delim piece =
  match splitFirst_from input delim piece with
  | Some (result, rest) => result :: split_from rest delim []
  | None => [piece ++ input]
  end.
Proof.
  induction input as [|c input IH]; intros piece.
  - cbn [split_from splitFirst_from]. rewrite app_nil_r. reflexivity.
  - cbn [split_from splitFirst_from]. destruct (c =? delim); [reflexivity|].
    rewrite IH.
    destruct (splitFirst_from input delim (piece ++ [c])) as [[result rest]|];
      [reflexivity|].
    rewrite <- app_assoc. reflexivity.
Qed.

(** X11.  [split] is [splitFirst], repeated: the first piece of [split] is
    what [splitFirst] returns and the other pieces are [split] of what
    [splitFirst] leaves; where [splitFirst] returns nothing, [split]
    returns the input as its only piece. *)
Theorem split_splitFirst (input : list Z) (delim : Z) :
  split input delim =
  match splitFirst input delim with
  | Some (result, rest) => result :: split rest delim
  | None => [input]
  end.
Proof. apply (split_from_first input delim []). Qed.

(** ** [trimArray], [trim] and [toLower] *)

Section TextProperties.

Variable isspace : Z -> bool.

Lemma trim_front_spec slice :
  exists front,
    slice = front ++ trim_front isspace slice /\
    Forall (fun c => isspace c = true) front /\
    match trim_front isspace slice with
    | [] => True
    | c :: _ => isspace c = false
    end.
Proof.
  induction slice as [|c slice (front & Heq & Hf & Hhd)].
  - exists []. repeat split. constructor.
  - cbn [trim_front]. destruct (isspace c) eqn:Hc.
    + exists (c :: front). cbn [app]. rewrite <- Heq.
      repeat split; [constructor; assumption | exact Hhd].
    + exists []. repeat split; [constructor | exact Hc].
Qed.

Lemma last_snoc (l : list Z) c d : last (l ++ [c]) d = c.
Proof. apply last_last. Qed.

Lemma trim_back_spec turns : forall slice,
  (length slice <= turns)%nat ->
  exists back,
    slice = trim_back isspace turns slice ++ back /\
    Forall (fun c => isspace c = true) back /\
    (trim_back isspace turns slice = [] \/
     isspace (last (trim_back isspace turns slice) 0) = false) /\
    (forall c rest, slice = c :: rest -> isspace c = false ->
       exists rest', trim_back isspace turns slice = c :: rest').
Proof.
  induction turns as [|turns IH]; intros slice Hlen.
  - destruct slice; [|cbn [length] in Hlen; lia].
    exists []. cbn [trim_back]. repeat split; [constructor|left; reflexivity|].
    intros c rest H. discriminate H.
  - cbn [trim_back]. destruct slice as [|x slice'] eqn:Es.
    + exists []. repeat split; [constructor|left; reflexivity|].
      intros c rest H. discriminate H.
    + rewrite <- Es in *.
      destruct (isspace (last slice 0)) eqn:Hl.
      * assert (Hne : slice <> []) by (subst; discriminate).
        pose proof (app_removelast_last 0 Hne) as Hsplit.
        destruct (IH (removelast slice)) as (back & Heq & Hb & Hend & Hfirst).
        { rewrite Hsplit in Hlen. rewrite length_app in Hlen.
          cbn [length] in Hlen. lia. }
        exists (back ++ [last slice 0]). split; [|split; [|split]].
        -- rewrite app_assoc, <- Heq. exact Hsplit.
        -- apply Forall_app. split; [exact Hb|]. repeat constructor. exact Hl.
        -- exact Hend.
        -- intros c rest Hc Hsp.
           destruct (removelast slice) as [|y rl] eqn:Er.
           ++ cbn [app] in Hsplit. rewrite Hsplit in Hc.
              injection Hc as Hcx _. rewrite Hcx in Hl. congruence.
           ++ apply (Hfirst c rl); [|exact Hsp].
              cbn [app] in Hsplit. rewrite Hsplit in Hc.
              injection Hc as Hcy _. rewrite Hcy. reflexivity.
      * exists []. rewrite app_nil_r.
        repeat split; [constructor|right; exact Hl|].
        intros c rest Hc _. exists rest. exact Hc.
Qed.

Lemma trimArray_cut (slice : list Z) :
  exists front back,
    slice = front ++ trimArray isspace slice ++ back /\
    Forall (fun c => isspace c = true) front /\
    Forall (fun c => isspace c = true) back /\
    (trimArray isspace slice = [] \/
     isspace (hd 0 (trimArray isspace slice)) = false /\
     isspace (last (trimArray isspace slice) 0) = false).
Proof.
  unfold trimArray.
  destruct (trim_front_spec slice) as (front & Heq & Hf & Hhd).
  destruct (trim_back_spec (length (trim_front isspace slice))
              (trim_front isspace slice) (Nat.le_refl _))
    as (back & Heq' & Hb & Hend & Hfirst).
  exists front, back. split; [|split; [exact Hf|split; [exact Hb|]]].
  - rewrite <- Heq'. exact Heq.
  - destruct Hend as [Hend|Hend]; [left; exact Hend|right].
    split; [|exact Hend].
    destruct (trim_front isspace slice) as [|c rest] eqn:Et.
    + destruct (length (@nil Z)); cbn [trim_back]; cbn [trim_back] in Hend;
        cbn [last] in Hend.
      * rewrite <- Hend. reflexivity.
      * rewrite <- Hend. reflexivity.
    + destruct (Hfirst c rest eq_refl Hhd) as (rest' & ->). exact Hhd.
Qed.

(** X12.  [trimArray] removes white space from both ends and nothing
    else: the slice is white space, the result, white space; and the
    result is empty or begins and ends with a character that is no white
    space. *)
Theorem trimArray_spec (slice : list Z) :
  exists front back,
    slice = front ++ trimArray isspace slice ++ back /\
    Forall (fun c => isspace c = true) front /\
    Forall (fun c => isspace c = true) back /\
    (trimArray isspace slice = [] \/
     isspace (hd 0 (trimArray isspace slice)) = false /\
     isspace (last (trimArray isspace slice) 0) = false).
Proof. exact (trimArray_cut slice). Qed.

Lemma trim_front_fixed slice :
  match slice with [] => True | c :: _ => isspace c = false end ->
  trim_front isspace slice = slice.
Proof.
  destruct slice as [|c slice]; [reflexivity|].
  intros Hc. cbn [trim_front]. rewrite Hc. reflexivity.
Qed.

Lemma trim_back_fixed turns slice :
  slice = [] \/ isspace (last slice 0) = false ->
  trim_back isspace turns slice = slice.
Proof.
  destruct turns as [|turns]; [reflexivity|].
  destruct slice as [|c slice]; [reflexivity|].
  intros [H|H]; [discriminate|]. cbn [trim_back]. rewrite H. reflexivity.
Qed.

Lemma trimArray_fixed (slice : list Z) :
  trimArray isspace (trimArray isspace slice) = trimArray isspace slice /\
  (trimArray isspace slice = [] <-> Forall (fun c => isspace c = true) slice).
Proof.
  destruct (trimArray_cut slice) as (front & back & Heq & Hf & Hb & Hends).
  split.
  - destruct Hends as [->|[Hhd Hlast]]; [reflexivity|].
    unfold trimArray at 1.
    rewrite trim_front_fixed.
    + apply trim_back_fixed. right. exact Hlast.
    + destruct (trimArray isspace slice); [exact I|exact Hhd].
  - split.
    + intros Hnil. rewrite Hnil in Heq. rewrite Heq.
      apply Forall_app. split; assumption.
    + intros Hall. destruct Hends as [H|[Hhd _]]; [exact H|].
      destruct (trimArray isspace slice) as [|c rest]; [reflexivity|].
      rewrite Heq in Hall. apply Forall_app in Hall. destruct Hall as [_ Hall].
      inversion Hall as [|? ? Hc _]; subst. cbn [hd] in Hhd. congruence.
Qed.

(** X13.  Trimming what is trimmed changes nothing, and the result of
    [trimArray] is empty exactly when the slice is white space only. *)
Theorem trimArray_idempotent (slice : list Z) :
  trimArray isspace (trimArray isspace slice) = trimArray isspace slice /\
  (trimArray isspace slice = [] <-> Forall (fun c => isspace c = true) slice).
Proof. exact (trimArray_fixed slice). Qed.

End TextProperties.

(** X14.  [toLower] keeps the length, leaves no upper-case letter, changes
    no character that is not one, and changes nothing when applied
    again. *)
Theorem toLower_spec (text : list Z) :
  length (toLower text) = length text /\
  Forall (fun c => is_upper c = false) (toLower text) /\
  (Forall (fun c => is_upper c = false) text -> toLower text = text) /\
  toLower (toLower text) = toLower text.
Proof.
  assert (Hlow : Forall (fun c => is_upper c = false) (toLower text)).
  { unfold toLower. apply Forall_map, Forall_forall. intros c _.
    fold (is_upper c). destruct (is_upper c) eqn:Hc; [|exact Hc].
    unfold is_upper in *. apply andb_true_iff in Hc.
    destruct Hc as [H1 H2]. apply Z.leb_le in H1, H2.
    change (chr "A") with 65 in *. change (chr "Z") with 90 in *.
    change (chr "a") with 97.
    rewrite to_char_id by (unfold is_char; lia).
    apply andb_false_iff. right. apply Z.leb_gt. lia. }
  assert (Hid : forall t, Forall (fun c => is_upper c = false) t -> toLower t = t).
  { intros t Ht. unfold toLower. rewrite <- (map_id t) at 2.
    apply map_ext_in. intros c Hin. rewrite Forall_forall in Ht.
    fold (is_upper c). rewrite (Ht c Hin). reflexivity. }
  split; [apply length_map|]. split; [exact Hlow|]. split; [apply Hid|].
  apply Hid, Hlow.
Qed.

Lemma toLower_spec_witness :
  Forall (fun c => is_upper c = false) (text "a-z 09") /\
  toLower (text "a-z 09") = text "a-z 09".
Proof.
  assert (H : Forall (fun c => is_upper c = false) (text "a-z 09"))
    by (repeat (apply Forall_cons; [reflexivity|]); apply Forall_nil).
  split; [exact H|].
  exact (proj1 (proj2 (proj2 (toLower_spec (text "a-z 09")))) H).
Defined.

(** ** [splitLines] *)

Lemma splitFirst_from_found pre delim rest : forall piece,
  ~ In delim pre ->
  splitFirst_from (pre ++ delim :: rest) delim piece = Some (piece ++ pre, rest).
Proof.
  induction pre as [|c pre IH]; intros piece Hp.
  - cbn [app splitFirst_from]. rewrite Z.eqb_refl, app_nil_r. reflexivity.
  - cbn [app splitFirst_from].
    destruct (Z.eqb_spec c delim) as [->|Hc];
      [exfalso; apply Hp; left; reflexivity|].
    rewrite IH by (intros Hin; apply Hp; right; exact Hin).
    rewrite <- app_assoc. reflexivity.
Qed.

Lemma splitFirst_from_none input delim : forall piece,
  ~ In delim input -> splitFirst_from input delim piece = None.
Proof.
  induction input as [|c input IH]; intros piece Hp; [reflexivity|].
  cbn [splitFirst_from].
  destruct (Z.eqb_spec c delim) as [->|Hc];
    [exfalso; apply Hp; left; reflexivity|].
  apply IH. intros Hin. apply Hp. right. exact Hin.
Qed.

Lemma before_hash_none line : ~ In (chr "#") line -> before_hash line = line.
Proof.
  intros H. unfold before_hash, splitFirst.
  rewrite splitFirst_from_none by exact H. reflexivity.
Qed.

Lemma before_hash_found pre junk :
  ~ In (chr "#") pre -> before_hash (pre ++ chr "#" :: junk) = pre.
Proof.
  intros H. unfold before_hash, splitFirst.
  rewrite splitFirst_from_found by exact H. reflexivity.
Qed.

Section SplitLines.

Variable isspace : Z -> bool.

Lemma add_line_cons line results :
  add_line isspace line results =
  if negb (is_empty (trim isspace line)) then trim isspace line :: results
  else results.
Proof. unfold add_line. destruct (trim isspace line); reflexivity. Qed.

Lemma lines_of_cons piece pieces :
  lines_of isspace (piece :: pieces) =
  add_line isspace (before_hash piece) (lines_of isspace pieces).
Proof. unfold lines_of. cbn [map filter]. rewrite add_line_cons. reflexivity. Qed.

Lemma splitLines_from_lines input :
  (forall line, ~ In (chr "#") line ->
     splitLines_from isspace input line false =
     lines_of isspace (split_from input newline line)) /\
  (forall pre junk, ~ In (chr "#") pre ->
     add_line isspace pre (splitLines_from isspace input [] true) =
     lines_of isspace (split_from input newline (pre ++ chr "#" :: junk))).
Proof.
  induction input as [|c input [IHa IHb]]; split.
  - intros line Hl. cbn [splitLines_from split_from].
    rewrite lines_of_cons, before_hash_none by exact Hl. reflexivity.
  - intros pre junk Hp. cbn [splitLines_from split_from].
    rewrite lines_of_cons, before_hash_found by exact Hp. reflexivity.
  - intros line Hl. cbn [splitLines_from split_from].
    destruct (Z.eqb_spec c newline) as [->|Hn].
    + cbn [orb]. rewrite lines_of_cons, before_hash_none by exact Hl.
      rewrite IHa by (intros []). reflexivity.
    + cbn [orb]. destruct (Z.eqb_spec c (chr "#")) as [->|Hh].
      * apply IHb. exact Hl.
      * apply IHa. apply not_in_snoc; assumption.
  - intros pre junk Hp. cbn [splitLines_from split_from].
    destruct (Z.eqb_spec c newline) as [->|Hn].
    + rewrite lines_of_cons, before_hash_found by exact Hp.
      rewrite IHa by (intros []). reflexivity.
    + rewrite <- app_assoc. cbn [app]. apply IHb. exact Hp.
Qed.

End SplitLines.

Lemma splitLines_as_split (isspace : Z -> bool) (input : list Z) :
  splitLines isspace input =
  filter (fun line => negb (is_empty line))
    (map (fun piece => trim isspace (before_hash piece)) (split input newline)).
Proof.
  unfold splitLines, split.
  apply (proj1 (splitLines_from_lines isspace input) []). intros [].
Qed.

(** X15.  [splitLines] is the composition of the other helpers: the input
    is split at its newlines, each piece is cut in front of its first [#]
    and trimmed, and the pieces that are empty then are dropped. *)
Theorem splitLines_composition (isspace : Z -> bool) (input : list Z) :
  splitLines isspace input =
  filter (fun line => negb (is_empty line))
    (map (fun piece => trim isspace (before_hash piece)) (split input newline)).
Proof. exact (splitLines_as_split isspace input). Qed.

(** X16.  Every line [splitLines] returns is not empty, holds neither a
    newline nor a [#], and is trimmed. *)
Theorem splitLines_lines (isspace : Z -> bool) (input line : list Z) :
  In line (splitLines isspace input) ->
  line <> [] /\
  ~ In newline line /\
  ~ In (chr "#") line /\
  trimArray isspace line = line.
Proof.
  rewrite splitLines_as_split. intros Hin.
  apply filter_In in Hin. destruct Hin as [Hin Hne].
  apply in_map_iff in Hin. destruct Hin as (piece & <- & Hpiece).
  pose proof (proj1 (proj2 (split_pieces input newline))) as Hall.
  rewrite Forall_forall in Hall. specialize (Hall piece Hpiece).
  assert (Hcut : exists junk, piece = before_hash piece ++ junk /\
                              ~ In (chr "#") (before_hash piece)).
  { unfold before_hash. pose proof (splitFirst_cases piece (chr "#")) as H.
    destruct (splitFirst piece (chr "#")) as [[result rest]|].
    - destruct H as [H1 H2]. exists (chr "#" :: rest). split; assumption.
    - exists []. rewrite app_nil_r. split; [reflexivity|exact H]. }
  destruct Hcut as (junk & Hcut & Hhash).
  unfold trim in *.
  destruct (trimArray_cut isspace (before_hash piece))
    as (front & back & Heq & _ & _ & _).
  assert (Hsub : forall c, In c (trimArray isspace (before_hash piece)) ->
                           In c piece).
  { intros c Hc. rewrite Hcut. apply in_or_app. left. rewrite Heq.
    apply in_or_app. right. apply in_or_app. left. exact Hc. }
  split; [|split; [|split]].
  - destruct (trimArray isspace (before_hash piece)); [discriminate|discriminate].
  - intros Hc. exact (Hall (Hsub _ Hc)).
  - intros Hc. apply Hhash. rewrite Heq.
    apply in_or_app. right. apply in_or_app. left. exact Hc.
  - apply trimArray_fixed.
Qed.

Lemma splitLines_lines_witness :
  let isspace := fun c => (c =? 32) || ((9 <=? c) && (c <=? 13)) in
  let input := text " a = 1 # one" ++ [newline] ++ text "b" in
  In (text "a = 1") (splitLines isspace input) /\
  text "a = 1" <> [] /\
  ~ In newline (text "a = 1") /\
  ~ In (chr "#") (text "a = 1") /\
  trimArray isspace (text "a = 1") = text "a = 1".
Proof.
  cbv zeta.
  assert (H : In (text "a = 1")
                (splitLines (fun c => (c =? 32) || ((9 <=? c) && (c <=? 13)))
                   (text " a = 1 # one" ++ [newline] ++ text "b")))
    by (left; reflexivity).
  split; [exact H|].
  exact (splitLines_lines _ _ _ H).
Defined.

(** ** [extractHostFromUrl] and [extractProtocolFromUrl] *)

Lemma findFirst_found pre c rest :
  ~ In c pre -> findFirst (pre ++ c :: rest) c = Some (length pre).
Proof.
  induction pre as [|x pre IH]; intros Hp.
  - cbn [app findFirst length]. rewrite Z.eqb_refl. reflexivity.
  - cbn [app findFirst length].
    destruct (Z.eqb_spec x c) as [->|Hx];
      [exfalso; apply Hp; left; reflexivity|].
    rewrite IH by (intros Hin; apply Hp; right; exact Hin). reflexivity.
Qed.

Lemma findFirst_none s c : ~ In c s -> findFirst s c = None.
Proof.
  induction s as [|x s IH]; intros Hp; [reflexivity|].
  cbn [findFirst].
  destruct (Z.eqb_spec x c) as [->|Hx];
    [exfalso; apply Hp; left; reflexivity|].
  rewrite IH by (intros Hin; apply Hp; right; exact Hin). reflexivity.
Qed.

Lemma findFirst_spec s c :
  match findFirst s c with
  | Some pos =>
      s = firstn pos s ++ c :: skipn (S pos) s /\ ~ In c (firstn pos s)
  | None => ~ In c s
  end.
Proof.
  induction s as [|x s IH]; [intros []|].
  cbn [findFirst]. destruct (Z.eqb_spec x c) as [->|Hx].
  - split; [reflexivity|intros []].
  - destruct (findFirst s c) as [pos|].
    + destruct IH as [Heq Hnot]. cbn [firstn skipn app] in *. split.
      * f_equal. exact Heq.
      * intros [Hin|Hin]; [exact (Hx Hin)|exact (Hnot Hin)].
    + intros [Hin|Hin]; [exact (Hx Hin)|exact (IH Hin)].
Qed.

Lemma skip_lower_spec url :
  exists scheme,
    url = scheme ++ skip_lower url /\
    Forall (fun c => is_lower c = true) scheme /\
    match skip_lower url with
    | [] => True
    | c :: _ => is_lower c = false
    end.
Proof.
  induction url as [|c url (scheme & Heq & Hs & Hhd)].
  - exists []. repeat split. constructor.
  - cbn [skip_lower]. fold (is_lower c). destruct (is_lower c) eqn:Hc.
    + exists (c :: scheme). cbn [app]. rewrite <- Heq.
      repeat split; [constructor; assumption|exact Hhd].
    + exists []. repeat split; [constructor|exact Hc].
Qed.

Lemma skip_lower_app scheme rest :
  Forall (fun c => is_lower c = true) scheme ->
  match rest with [] => True | c :: _ => is_lower c = false end ->
  skip_lower (scheme ++ rest) = rest.
Proof.
  induction 1 as [|c scheme Hc _ IH]; intros Hrest.
  - destruct rest as [|c rest]; [reflexivity|].
    cbn [app skip_lower]. fold (is_lower c). rewrite Hrest. reflexivity.
  - cbn [app skip_lower]. fold (is_lower c). rewrite Hc. apply IH, Hrest.
Qed.

Lemma startsWith_spec prefix : forall s,
  startsWith s prefix = true <-> exists rest, s = prefix ++ rest.
Proof.
  induction prefix as [|p prefix IH]; intros s.
  - cbn [startsWith]. split; [intros _; exists s; reflexivity|reflexivity].
  - destruct s as [|x s]; cbn [startsWith].
    + split; [discriminate|intros (rest & H); discriminate H].
    + rewrite andb_true_iff, Z.eqb_eq, IH. split.
      * intros (-> & rest & ->). exists rest. reflexivity.
      * intros (rest & H). injection H as -> ->. split; [reflexivity|].
        exists rest. reflexivity.
Qed.

Lemma extractHostFromUrl_shape (url host : list Z) :
  extractHostFromUrl url = Some host <->
  exists scheme rest,
    url = scheme ++ text "://" ++ host ++ rest /\
    Forall (fun c => is_lower c = true) scheme /\
    ~ In (chr "/") host /\
    (rest = [] \/ exists path, rest = chr "/" :: path).
Proof.
  unfold extractHostFromUrl. split.
  - destruct (skip_lower_spec url) as (scheme & Heq & Hs & _).
    destruct (startsWith (skip_lower url) (text "://")) eqn:Hstart;
      [|discriminate].
    apply startsWith_spec in Hstart. destruct Hstart as (tail & Htail).
    rewrite Htail in *. change (skipn 3 (text "://" ++ tail)) with tail.
    pose proof (findFirst_spec tail (chr "/")) as Hfind.
    destruct (findFirst tail (chr "/")) as [pos|]; intros H; injection H as <-.
    + destruct Hfind as [Hsplit Hnot].
      exists scheme, (chr "/" :: skipn (S pos) tail).
      split; [rewrite <- Hsplit; exact Heq|].
      split; [exact Hs|]. split; [exact Hnot|]. right. eexists. reflexivity.
    + exists scheme, []. rewrite app_nil_r.
      split; [exact Heq|]. split; [exact Hs|]. split; [exact Hfind|].
      left. reflexivity.
  - intros (scheme & rest & -> & Hs & Hhost & Hrest).
    rewrite skip_lower_app by (assumption || reflexivity).
    change (startsWith (text "://" ++ host ++ rest) (text "://")) with true.
    change (skipn 3 (text "://" ++ host ++ rest)) with (host ++ rest).
    destruct Hrest as [->|(path & ->)].
    + rewrite app_nil_r, findFirst_none by exact Hhost. reflexivity.
    + rewrite findFirst_found by exact Hhost.
      rewrite firstn_app, Nat.sub_diag, firstn_all. cbn [firstn].
      rewrite app_nil_r. reflexivity.
Qed.

(** X17.  [extractHostFromUrl] accepts exactly the URLs made of a scheme
    of lower-case letters (possibly none), [://], a host without [/] and
    then nothing or a [/] and anything, and returns the host; on every
    other URL it fails. *)
Theorem extractHostFromUrl_spec (url host : list Z) :
  extractHostFromUrl url = Some host <->
  exists scheme rest,
    url = scheme ++ text "://" ++ host ++ rest /\
    Forall (fun c => is_lower c = true) scheme /\
    ~ In (chr "/") host /\
    (rest = [] \/ exists path, rest = chr "/" :: path).
Proof. exact (extractHostFromUrl_shape url host). Qed.

Lemma extractHostFromUrl_spec_witness :
  (exists scheme rest,
     text "https://example.com/a/b" =
       scheme ++ text "://" ++ text "example.com" ++ rest /\
     Forall (fun c => is_lower c = true) scheme /\
     ~ In (chr "/") (text "example.com") /\
     (rest = [] \/ exists path, rest = chr "/" :: path)) /\
  extractHostFromUrl (text "https://example.com/a/b") = Some (text "example.com").
Proof.
  assert (H : exists scheme rest,
     text "https://example.com/a/b" =
       scheme ++ text "://" ++ text "example.com" ++ rest /\
     Forall (fun c => is_lower c = true) scheme /\
     ~ In (chr "/") (text "example.com") /\
     (rest = [] \/ exists path, rest = chr "/" :: path)).
  { exists (text "https"), (text "/a/b"). split; [reflexivity|]. split.
    - repeat (apply Forall_cons; [reflexivity|]). apply Forall_nil.
    - split; [|right; eexists; reflexivity].
      intros Hin. cbn in Hin.
      repeat (destruct Hin as [Hin|Hin]; [discriminate Hin|]). exact Hin. }
  split; [exact H|].
  exact (proj2 (extractHostFromUrl_spec (text "https://example.com/a/b")
                  (text "example.com")) H).
Defined.

(** X18.  [extractProtocolFromUrl] returns what stands in front of the
    first [:], as [splitFirst] does, and fails exactly on a URL without
    [:]. *)
Theorem extractProtocolFromUrl_spec (url : list Z) :
  extractProtocolFromUrl url = option_map fst (splitFirst url (chr ":")) /\
  (extractProtocolFromUrl url = None <-> ~ In (chr ":") url).
Proof.
  assert (Heq : extractProtocolFromUrl url =
                option_map fst (splitFirst url (chr ":"))).
  { unfold extractProtocolFromUrl.
    pose proof (findFirst_spec url (chr ":")) as Hfind.
    destruct (findFirst url (chr ":")) as [pos|].
    - destruct Hfind as [Hsplit Hnot]. unfold splitFirst.
      rewrite Hsplit at 2.
      rewrite splitFirst_from_found by exact Hnot. reflexivity.
    - unfold splitFirst. rewrite splitFirst_from_none by exact Hfind.
      reflexivity. }
  split; [exact Heq|]. rewrite Heq.
  pose proof (splitFirst_cases url (chr ":")) as H.
  destruct (splitFirst url (chr ":")) as [[result rest]|]; cbn [option_map].
  - destruct H as [-> _]. split; [discriminate|].
    intros Hnot. exfalso. apply Hnot. apply in_or_app. right. left. reflexivity.
  - split; [intros _; exact H|reflexivity].
Qed.

(** X19.  On every URL of which [extractHostFromUrl] returns the host,
    [extractProtocolFromUrl] returns a scheme of lower-case letters, and
    the URL begins with that scheme, [://] and that host. *)
Theorem extractProtocol_of_host (url host : list Z) :
  extractHostFromUrl url = Some host ->
  exists scheme rest,
    extractProtocolFromUrl url = Some scheme /\
    Forall (fun c => is_lower c = true) scheme /\
    url = scheme ++ text "://" ++ host ++ rest.
Proof.
  intros H. apply extractHostFromUrl_shape in H.
  destruct H as (scheme & rest & -> & Hs & _ & _).
  exists scheme, rest. split; [|split; [exact Hs|reflexivity]].
  unfold extractProtocolFromUrl.
  change (scheme ++ text "://" ++ host ++ rest)
    with (scheme ++ chr ":" :: (text "//" ++ host ++ rest)).
  rewrite findFirst_found.
  - rewrite firstn_app, Nat.sub_diag, firstn_all. cbn [firstn].
    rewrite app_nil_r. reflexivity.
  - intros Hin. rewrite Forall_forall in Hs. specialize (Hs _ Hin).
    discriminate Hs.
Qed.

Lemma extractProtocol_of_host_witness :
  extractHostFromUrl (text "http://localhost:6080") =
    Some (text "localhost:6080") /\
  exists scheme rest,
    extractProtocolFromUrl (text "http://localhost:6080") = Some scheme /\
    Forall (fun c => is_lower c = true) scheme /\
    text "http://localhost:6080" =
      scheme ++ text "://" ++ text "localhost:6080" ++ rest.
Proof.
  split; [reflexivity|].
  exact (extractProtocol_of_host (text "http://localhost:6080")
           (text "localhost:6080") eq_refl).
Defined.

(** ** [readLine] *)

Lemma scan_line_spec buffer :
  match scan_line buffer with
  | Some (line, i) =>
      buffer = line ++ newline :: skipn (S i) buffer /\ ~ In newline line
  | None => ~ In newline buffer
  end.
Proof.
  induction buffer as [|c buffer IH]; [intros []|].
  cbn [scan_line]. destruct (Z.eqb_spec c newline) as [->|Hc].
  - split; [reflexivity|intros []].
  - destruct (scan_line buffer) as [[line i]|].
    + destruct IH as [Heq Hnot]. split.
      * cbn [app]. f_equal. exact Heq.
      * intros [Hin|Hin]; [exact (Hc Hin)|exact (Hnot Hin)].
    + intros [Hin|Hin]; [exact (Hc Hin)|exact (IH Hin)].
Qed.

Lemma splitFirst_from_app pre input delim : forall piece,
  ~ In delim pre ->
  splitFirst_from (pre ++ input) delim piece =
  splitFirst_from input delim (piece ++ pre).
Proof.
  induction pre as [|c pre IH]; intros piece Hp.
  - rewrite app_nil_r. reflexivity.
  - cbn [app splitFirst_from].
    destruct (Z.eqb_spec c delim) as [->|Hc];
      [exfalso; apply Hp; left; reflexivity|].
    rewrite IH by (intros Hin; apply Hp; right; exact Hin).
    rewrite <- app_assoc. reflexivity.
Qed.

Lemma skip_concat n buffer more :
  concat (skip n (buffer :: more)) = skipn n buffer ++ concat more /\
  (Forall (fun b => b <> []) more ->
   Forall (fun b : list Z => b <> []) (skip n (buffer :: more))).
Proof.
  cbn [skip]. destruct (skipn n buffer) as [|c rest]; split;
    try reflexivity; intros H; [exact H|].
  constructor; [discriminate|exact H].
Qed.

Lemma readLine_from_spec input : forall result,
  Forall (fun b => b <> []) input ->
  match readLine_from input result with
  | Line line input' =>
      splitFirst_from (concat input) newline result =
        Some (line, concat input') /\
      Forall (fun b => b <> []) input'
  | EndOfInput => input = [] /\ result = []
  | PartialLine => ~ In newline (concat input) /\ result ++ concat input <> []
  end.
Proof.
  induction input as [|buffer more IH]; intros result Hall.
  - cbn [readLine_from concat]. destruct result; [split; reflexivity|].
    split; [intros []|discriminate].
  - inversion Hall as [|? ? Hb Hmore]; subst.
    destruct buffer as [|c buffer]; [contradiction|].
    cbn [readLine_from concat].
    pose proof (scan_line_spec (c :: buffer)) as Hscan.
    destruct (scan_line (c :: buffer)) as [[line i]|].
    + destruct Hscan as [Heq Hnot].
      destruct (skip_concat (S i) (c :: buffer) more) as [Hcat Hne].
      rewrite Hcat. split; [|exact (Hne Hmore)].
      rewrite Heq at 1. rewrite <- app_assoc. cbn [app].
      apply splitFirst_from_found. exact Hnot.
    + specialize (IH (result ++ c :: buffer) Hmore).
      destruct (readLine_from more (result ++ c :: buffer)) as [line input'| |].
      * destruct IH as [IH1 IH2]. split; [|exact IH2].
        rewrite splitFirst_from_app by exact Hscan. exact IH1.
      * destruct IH as [_ IH]. destruct result; discriminate IH.
      * destruct IH as [IH1 IH2]. split.
        -- intros Hin. apply in_app_or in Hin.
           destruct Hin as [Hin|Hin]; [exact (Hscan Hin)|exact (IH1 Hin)].
        -- rewrite <- app_assoc in IH2. exact IH2.
Qed.

(** X20.  [readLine] does not depend on how the stream hands out its
    bytes: it returns what stands in front of the first newline of the
    bytes to come and leaves what stands behind it in the stream; it
    returns nothing exactly at the end of the stream, and fails exactly
    when bytes are left but no newline. *)
Theorem readLine_spec (input : list (list Z)) :
  Forall (fun buffer => buffer <> []) input ->
  match readLine input with
  | Line line input' =>
      splitFirst (concat input) newline = Some (line, concat input') /\
      Forall (fun buffer => buffer <> []) input'
  | EndOfInput => input = []
  | PartialLine => ~ In newline (concat input) /\ concat input <> []
  end.
Proof.
  intros Hall. pose proof (readLine_from_spec input [] Hall) as H.
  unfold readLine, splitFirst.
  destruct (readLine_from input []); [exact H|apply H|exact H].
Qed.

Lemma readLine_spec_witness :
  Forall (fun buffer => buffer <> [])
    [text "ab"; text "c" ++ [newline] ++ text "de"] /\
  readLine [text "ab"; text "c" ++ [newline] ++ text "de"] =
    Line (text "abc") [text "de"] /\
  splitFirst (concat [text "ab"; text "c" ++ [newline] ++ text "de"]) newline =
    Some (text "abc", concat [text "de"]) /\
  Forall (fun buffer => buffer <> []) [text "de"].
Proof.
  assert (H : Forall (fun buffer : list Z => buffer <> [])
                [text "ab"; text "c" ++ [newline] ++ text "de"])
    by (repeat (apply Forall_cons; [discriminate|]); apply Forall_nil).
  split; [exact H|]. split; [reflexivity|].
  exact (readLine_spec [text "ab"; text "c" ++ [newline] ++ text "de"] H).
Defined.

(** * The wildcard host of [db.js] *)

Lemma lastIndexOf_zero host prefix :
  (0 <=? lastIndexOf host prefix 0) = startsWith host prefix.
Proof.
  unfold lastIndexOf.
  replace (Z.to_nat (Z.min (Z.max 0 0) (len host))) with O
    by (pose proof (len_nonneg host); lia).
  cbn [lastIndexOf_loop skipn].
  destruct (startsWith host prefix); reflexivity.
Qed.

Lemma indexOf_not_positive host search position :
  position <= 0 -> indexOf host search position = indexOf_loop host search 0.
Proof.
  intros Hp. unfold indexOf.
  replace (Z.to_nat (Z.min (Z.max position 0) (len host))) with O
    by (pose proof (len_nonneg host); lia).
  reflexivity.
Qed.

Lemma indexOf_loop_spec search : forall s k,
  (0 <=? indexOf_loop s search k) = true <->
  exists front back, s = front ++ search ++ back.
Proof.
  induction s as [|c s IH]; intros k; cbn [indexOf_loop].
  - destruct (startsWith [] search) eqn:Hs.
    + split; [intros _|intros _; apply Z.leb_le; lia].
      apply startsWith_spec in Hs. destruct Hs as (rest & Hs).
      exists [], rest. exact Hs.
    + split; [discriminate|].
      intros (front & back & H).
      destruct front; [|discriminate H].
      assert (startsWith [] search = true) as Hs'
        by (apply startsWith_spec; exists back; exact H).
      congruence.
  - destruct (startsWith (c :: s) search) eqn:Hs.
    + split; [intros _|intros _; apply Z.leb_le; lia].
      apply startsWith_spec in Hs. destruct Hs as (rest & Hs).
      exists [], rest. exact Hs.
    + rewrite IH. split.
      * intros (front & back & H). exists (c :: front), back.
        rewrite H. reflexivity.
      * intros (front & back & H). destruct front as [|c' front].
        -- assert (startsWith (c :: s) search = true) as Hs'
             by (apply startsWith_spec; exists back; exact H).
           congruence.
        -- injection H as _ H. exists front, back. exact H.
Qed.

Lemma skipn_len_app (a b : list Z) : skipn (Z.to_nat (len a)) (a ++ b) = b.
Proof.
  unfold len. rewrite Nat2Z.id, skipn_app, skipn_all, Nat.sub_diag.
  reflexivity.
Qed.

Lemma firstn_len_app (a b : list Z) : firstn (Z.to_nat (len a)) (a ++ b) = a.
Proof.
  unfold len. rewrite Nat2Z.id, firstn_app, firstn_all, Nat.sub_diag.
  cbn [firstn]. apply app_nil_r.
Qed.

Lemma slice_middle prefix id tail :
  tail <> [] ->
  slice (prefix ++ id ++ tail) (len prefix) (- len tail) = id.
Proof.
  intros Hne. unfold slice.
  assert (0 < len tail) as Ht
    by (destruct tail; [contradiction|rewrite len_cons; pose proof (len_nonneg tail); lia]).
  pose proof (len_nonneg prefix) as Hp. pose proof (len_nonneg id) as Hi.
  rewrite !len_app.
  destruct (Z.ltb_spec (len prefix) 0) as [?|_]; [lia|].
  destruct (Z.ltb_spec (- len tail) 0) as [_|?]; [|lia].
  replace (Z.min (len prefix) (len prefix + (len id + len tail)))
    with (len prefix) by lia.
  replace (Z.max (Z.max (len prefix + (len id + len tail) + - len tail) 0 - len prefix) 0)
    with (len id) by lia.
  rewrite skipn_len_app. apply firstn_len_app.
Qed.

Lemma slice_to_zero s start : 0 <= start -> slice s start 0 = [].
Proof.
  intros Hs. unfold slice. pose proof (len_nonneg s).
  destruct (Z.ltb_spec start 0) as [?|_]; [lia|].
  cbn [Z.ltb Z.compare].
  replace (Z.to_nat (Z.max (Z.min 0 (len s) - Z.min start (len s)) 0)) with O
    by lia.
  reflexivity.
Qed.

(** What [slice] cuts out of a host that is long enough. *)
Lemma slice_parts host (p q : Z) :
  0 <= p -> 0 < q -> p + q <= len host ->
  exists front tail,
    host = front ++ slice host p (- q) ++ tail /\
    len front = p /\ len tail = q.
Proof.
  intros Hp Hq Hlen. unfold slice.
  destruct (Z.ltb_spec p 0) as [?|_]; [lia|].
  destruct (Z.ltb_spec (- q) 0) as [_|?]; [|lia].
  replace (Z.min p (len host)) with p by lia.
  replace (Z.max (Z.max (len host + - q) 0 - p) 0) with (len host - q - p) by lia.
  exists (firstn (Z.to_nat p) host),
         (skipn (Z.to_nat (len host - q - p)) (skipn (Z.to_nat p) host)).
  rewrite firstn_skipn, firstn_skipn. split; [reflexivity|].
  unfold len in *. rewrite length_firstn, !length_skipn. lia.
Qed.

Lemma forallb_id_chars id c :
  forallb is_id_char id = true -> is_id_char c = false -> ~ In c id.
Proof.
  intros Hid Hc Hin. rewrite forallb_forall in Hid.
  apply Hid in Hin. congruence.
Qed.

(** An occurrence of a text whose first character is neither in [front]
    nor in [id] begins at or behind the end of [id]. *)
Lemma occurrence_behind (front id tail a b : list Z) c rest :
  front ++ id ++ tail = a ++ (c :: rest) ++ b ->
  ~ In c front -> ~ In c id ->
  len front + len id <= len a.
Proof.
  rewrite app_assoc. revert a.
  induction (front ++ id) as [|x l IH] eqn:Hl in front, id |- *;
    intros a H Hf Hi.
  - apply app_eq_nil in Hl. destruct Hl as [-> ->].
    rewrite !len_nil. pose proof (len_nonneg a). lia.
  - destruct a as [|y a].
    + cbn [app] in H. injection H as Hx _. subst x.
      exfalso. destruct front as [|f front].
      * cbn [app] in Hl. subst id. apply Hi. left. reflexivity.
      * injection Hl as Hf' _. apply Hf. left. exact Hf'.
    + cbn [app] in H. injection H as _ H.
      rewrite len_cons.
      destruct front as [|f front].
      * cbn [app] in Hl. subst id. rewrite len_nil, len_cons.
        specialize (IH [] l eq_refl a H Hf).
        rewrite len_nil in IH.
        assert (~ In c l) as Hl' by (intros Hin; apply Hi; right; exact Hin).
        specialize (IH Hl'). lia.
      * injection Hl as _ Hl. rewrite len_cons.
        assert (~ In c front) as Hf' by (intros Hin; apply Hf; right; exact Hin).
        specialize (IH front id Hl a H Hf' Hi). lia.
Qed.

Lemma app_same_length (a b c d : list Z) :
  a ++ b = c ++ d -> len a = len c -> a = c /\ b = d.
Proof.
  revert c. induction a as [|x a IH]; intros c H Hlen.
  - destruct c; [split; [reflexivity|exact H]|].
    rewrite len_nil, len_cons in Hlen. pose proof (len_nonneg c). lia.
  - destruct c as [|y c].
    + rewrite len_nil, len_cons in Hlen. pose proof (len_nonneg a). lia.
    + cbn [app] in H. injection H as -> H. rewrite !len_cons in Hlen.
      destruct (IH c H ltac:(lia)) as [-> ->]. split; reflexivity.
Qed.
Lemma startsWith_app prefix rest : startsWith (prefix ++ rest) prefix = true.
Proof. apply startsWith_spec. exists rest. reflexivity. Qed.

Lemma wildcardHost_match_made (setting suffix id : list Z) :
  nth_error (wildcardHost setting) 1 = Some suffix ->
  suffix <> [] ->
  forallb is_id_char id = true ->
  matchWildcardHost setting (makeWildcardHost setting id) = HostId id.
Proof.
  intros Hsuffix Hne Hid. unfold matchWildcardHost, makeWildcardHost.
  rewrite Hsuffix.
  rewrite lastIndexOf_zero, startsWith_app.
  rewrite indexOf_not_positive by (pose proof (len_nonneg suffix); lia).
  assert ((0 <=? indexOf_loop (nth 0 (wildcardHost setting) [] ++ id ++ suffix)
                  suffix 0) = true) as ->.
  { apply indexOf_loop_spec.
    exists (nth 0 (wildcardHost setting) [] ++ id), [].
    rewrite app_nil_r, <- app_assoc. reflexivity. }
  assert ((len (nth 0 (wildcardHost setting) []) + len suffix <=?
           len (nth 0 (wildcardHost setting) [] ++ id ++ suffix)) = true) as ->.
  { apply Z.leb_le. rewrite !len_app. pose proof (len_nonneg id). lia. }
  cbn [andb]. rewrite slice_middle by exact Hne. rewrite Hid. reflexivity.
Qed.

(** X21. With a wildcard whose part behind the star is not empty,
    [matchWildcardHost] gives back the id [makeWildcardHost] made the host
    of, for every id of lower-case letters and digits. *)
Theorem wildcardHost_roundtrip (setting suffix id : list Z) :
  nth_error (wildcardHost setting) 1 = Some suffix ->
  suffix <> [] ->
  forallb is_id_char id = true ->
  matchWildcardHost setting (makeWildcardHost setting id) = HostId id.
Proof. exact (wildcardHost_match_made setting suffix id). Qed.

Lemma wildcardHost_roundtrip_witness :
  matchWildcardHost (text "*.sandstorm.io")
    (makeWildcardHost (text "*.sandstorm.io") (text "a1b2")) =
  HostId (text "a1b2").
Proof.
  apply (wildcardHost_roundtrip (text "*.sandstorm.io") (text ".sandstorm.io")).
  - reflexivity.
  - discriminate.
  - reflexivity.
Defined.

(** X22. Where the part behind the star begins with a character that is
    no letter or digit of an id and does not occur before the star,
    [matchWildcardHost] returns an id exactly for the hosts
    [makeWildcardHost] makes of ids of lower-case letters and digits. *)
Theorem matchWildcardHost_exact (setting rest host id : list Z) (c : Z) :
  nth_error (wildcardHost setting) 1 = Some (c :: rest) ->
  is_id_char c = false ->
  ~ In c (nth 0 (wildcardHost setting) []) ->
  matchWildcardHost setting host = HostId id <->
  host = makeWildcardHost setting id /\ forallb is_id_char id = true.
Proof.
  intros Hsuffix Hc Hprefix. split.
  - unfold matchWildcardHost, makeWildcardHost. rewrite Hsuffix.
    rewrite lastIndexOf_zero.
    destruct (startsWith host (nth 0 (wildcardHost setting) [])) eqn:Hstart;
      [|discriminate].
    rewrite indexOf_not_positive by (pose proof (len_nonneg (c :: rest)); lia).
    destruct (0 <=? indexOf_loop host (c :: rest) 0) eqn:Hin;
      [|discriminate].
    destruct (Z.leb_spec (len (nth 0 (wildcardHost setting) []) + len (c :: rest))
                (len host)) as [Hlen|_]; [|discriminate].
    change (true && true) with true. cbv iota.
    destruct (slice_parts host (len (nth 0 (wildcardHost setting) []))
                (len (c :: rest))) as (front & tail & Hhost & Hfront & Htail).
    { apply len_nonneg. }
    { rewrite len_cons. pose proof (len_nonneg rest). lia. }
    { exact Hlen. }
    revert Hhost.
    generalize (slice host (len (nth 0 (wildcardHost setting) []))
                  (- len (c :: rest))).
    intros cut Hhost.
    destruct (forallb is_id_char cut) eqn:Hid; [|discriminate].
    intros H. injection H as H. subst cut.
    split; [|exact Hid].
    apply startsWith_spec in Hstart. destruct Hstart as (after & Hstart).
    apply indexOf_loop_spec in Hin. destruct Hin as (a & b & Hin).
    assert (front = nth 0 (wildcardHost setting) []) as ->.
    { assert (front ++ id ++ tail = nth 0 (wildcardHost setting) [] ++ after) as Heq
        by congruence.
      apply app_same_length in Heq; [tauto|exact Hfront]. }
    assert (len (nth 0 (wildcardHost setting) []) + len id <= len a) as Hbehind.
    { apply (occurrence_behind _ id tail a b c rest).
      - congruence.
      - exact Hprefix.
      - apply forallb_id_chars; assumption. }
    assert (len host = len a + len (c :: rest) + len b) as Hl1
      by (rewrite Hin, !len_app; lia).
    assert (len host = len (nth 0 (wildcardHost setting) []) + len id + len tail) as Hl2
      by (rewrite Hhost at 1; rewrite !len_app; lia).
    pose proof (len_nonneg b) as Hb.
    assert (b = []) as ->.
    { destruct b as [|x b]; [reflexivity|].
      pose proof (len_cons x b). pose proof (len_nonneg b). lia. }
    rewrite len_nil in Hl1. rewrite app_nil_r in Hin.
    assert ((nth 0 (wildcardHost setting) [] ++ id) ++ tail = a ++ c :: rest) as Heq
      by (rewrite <- app_assoc; congruence).
    apply app_same_length in Heq; [|rewrite len_app; lia].
    destruct Heq as [_ <-]. exact Hhost.
  - intros [-> Hid].
    apply (wildcardHost_match_made setting (c :: rest) id Hsuffix);
      [discriminate|exact Hid].
Qed.

Lemma matchWildcardHost_exact_witness :
  matchWildcardHost (text "*.sandstorm.io") (text "a1b2.sandstorm.io") =
  HostId (text "a1b2") <->
  text "a1b2.sandstorm.io" = makeWildcardHost (text "*.sandstorm.io") (text "a1b2") /\
  forallb is_id_char (text "a1b2") = true.
Proof.
  apply (matchWildcardHost_exact (text "*.sandstorm.io") (text "sandstorm.io")
           (text "a1b2.sandstorm.io") (text "a1b2") (chr ".")).
  - reflexivity.
  - reflexivity.
  - simpl. tauto.
Defined.

(** X23. With a wildcard that ends in the star, [matchWildcardHost] never
    extracts an id: it returns the empty id for every host that begins with
    the part before the star, and [null] for every other host. *)
Theorem matchWildcardHost_empty_suffix (setting host : list Z) :
  nth_error (wildcardHost setting) 1 = Some [] ->
  (matchWildcardHost setting host = HostId [] /\
   exists rest, host = nth 0 (wildcardHost setting) [] ++ rest) \/
  (matchWildcardHost setting host = HostNull /\
   forall rest, host <> nth 0 (wildcardHost setting) [] ++ rest).
Proof.
  intros Hsuffix. unfold matchWildcardHost. rewrite Hsuffix.
  rewrite lastIndexOf_zero.
  destruct (startsWith host (nth 0 (wildcardHost setting) [])) eqn:Hstart.
  - left. apply startsWith_spec in Hstart. destruct Hstart as (rest & ->).
    split; [|exists rest; reflexivity].
    rewrite indexOf_not_positive by (rewrite len_nil; lia).
    assert ((0 <=? indexOf_loop (nth 0 (wildcardHost setting) [] ++ rest) [] 0)
            = true) as ->.
    { apply indexOf_loop_spec.
      exists [], (nth 0 (wildcardHost setting) [] ++ rest). reflexivity. }
    assert ((len (nth 0 (wildcardHost setting) []) + len (@nil Z) <=?
             len (nth 0 (wildcardHost setting) [] ++ rest)) = true) as ->.
    { apply Z.leb_le. rewrite len_app, len_nil. pose proof (len_nonneg rest). lia. }
    cbn [andb]. rewrite len_nil. cbn [Z.opp].
    rewrite slice_to_zero by apply len_nonneg. reflexivity.
  - right. split; [reflexivity|].
    intros rest ->. rewrite startsWith_app in Hstart. discriminate.
Qed.

Lemma matchWildcardHost_empty_suffix_witness :
  (matchWildcardHost (text "grain-*") (text "grain-a1b2") = HostId [] /\
   exists rest, text "grain-a1b2" = nth 0 (wildcardHost (text "grain-*")) [] ++ rest) \/
  (matchWildcardHost (text "grain-*") (text "grain-a1b2") = HostNull /\
   forall rest, text "grain-a1b2" <> nth 0 (wildcardHost (text "grain-*")) [] ++ rest).
Proof.
  apply (matchWildcardHost_empty_suffix (text "grain-*") (text "grain-a1b2")).
  reflexivity.
Defined.

(** X24. With a setting that has no star, [makeWildcardHost] appends the
    text [undefined] to the id, and [matchWildcardHost] returns no id: it
    raises a [TypeError] for the hosts that begin with the setting and
    returns [null] for the others. *)
Theorem wildcardHost_without_star (setting host id : list Z) :
  ~ In (chr "*") setting ->
  makeWildcardHost setting id = setting ++ id ++ text "undefined" /\
  ((exists rest, host = setting ++ rest) ->
   matchWildcardHost setting host = HostTypeError) /\
  ((forall rest, host <> setting ++ rest) ->
   matchWildcardHost setting host = HostNull).
Proof.
  intros Hstar.
  assert (wildcardHost setting = [setting]) as Hsplit.
  { unfold wildcardHost, split.
    rewrite <- (app_nil_r setting) at 1.
    rewrite split_from_app by exact Hstar. reflexivity. }
  unfold makeWildcardHost, matchWildcardHost. rewrite Hsplit.
  cbn [nth nth_error]. rewrite lastIndexOf_zero.
  split; [reflexivity|]. split.
  - intros (rest & ->). rewrite startsWith_app. reflexivity.
  - intros Hno. destruct (startsWith host setting) eqn:Hstart; [|reflexivity].
    apply startsWith_spec in Hstart. destruct Hstart as (rest & Hrest).
    destruct (Hno rest Hrest).
Qed.

Lemma wildcardHost_without_star_witness :
  makeWildcardHost (text "sandstorm.io") (text "a1") =
  text "sandstorm.io" ++ text "a1" ++ text "undefined" /\
  ((exists rest, text "sandstorm.io:6080" = text "sandstorm.io" ++ rest) ->
   matchWildcardHost (text "sandstorm.io") (text "sandstorm.io:6080") =
   HostTypeError) /\
  ((forall rest, text "sandstorm.io:6080" <> text "sandstorm.io" ++ rest) ->
   matchWildcardHost (text "sandstorm.io") (text "sandstorm.io:6080") = HostNull).
Proof.
  apply (wildcardHost_without_star (text "sandstorm.io")
           (text "sandstorm.io:6080") (text "a1")).
  vm_compute. intros H.
  repeat (destruct H as [H|H]; [discriminate H|]). exact H.
Defined.

(** * The users of [db.js] *)

(** X25. [isSignedUpOrDemo] holds exactly of the users of whom [isSignedUp]
    or [isDemoUser] holds. *)
Theorem isSignedUpOrDemo_union (user : option user_doc) :
  isSignedUpOrDemo user = isSignedUp user || isDemoUser user.
Proof.
  destruct user as [user|]; [|reflexivity].
  unfold isSignedUpOrDemo, isSignedUp, isDemoUser, js_or.
  destruct (to_boolean (user_signupKey user)) eqn:Hkey.
  - rewrite Hkey. reflexivity.
  - reflexivity.
Qed.

(** X26. The callback of [Accounts.onCreateUser] makes the user created
    while there is none an administrator who is signed up; every later user
    is an administrator, and signed up, only if the document passed in
    was.  Whether the user is a demo user is never changed. *)
Theorem onCreateUser_first_admin (count : nat) (profile : js_value)
    (user : user_doc) :
  isAdmin (Some (onCreateUser count profile user)) =
    Nat.eqb count 0 || isAdmin (Some user) /\
  isSignedUp (Some (onCreateUser count profile user)) =
    Nat.eqb count 0 || isSignedUp (Some user) /\
  isDemoUser (Some (onCreateUser count profile user)) =
    isDemoUser (Some user).
Proof.
  unfold onCreateUser, isAdmin, isSignedUp, isDemoUser.
  destruct count; destruct (to_boolean profile); cbn; repeat split.
Qed.
